(** * SPF include-chain resolver (server.js): a shallow embedding

    The development follows [server.js]: the record parser
    [parseSpfRecord], the recursive resolver [lookupSpfRecords], the range
    collector [collectAllIpRanges] and the matcher [checkIpInRanges].

    Modelling choices.
    - A JavaScript string is a sequence of code units.  TXT data delivered by
      [node:dns] is one code unit per byte, so [string] (a list of
      8-bit characters) is used, a character standing for the code unit of
      the same number.
    - A [Set] object lives in a store and is named by a reference, so that
      [visited.add] on an argument and [new Set(visited)] keep their
      aliasing behaviour.
    - [resolveTxt] is an oracle from domains to an error message or a list
      of records; every call is appended to a log.
    - [depth] and [maxDepth] are integers, which is what the doubles of
      JavaScript are as long as the sums are exact; [Double] has the
      resolver on doubles. *)

From Stdlib Require Import ZArith Ascii String PrimFloat.
From stdpp Require Import base option list strings gmap.

Local Open Scope string_scope.
Local Open Scope Z_scope.
Local Open Scope list_scope.
Set Warnings "-register-all,-clear-no-such-hyp".

(** ** Strings *)

Module Str.

(** [s.startsWith(p)], returning what follows the prefix. *)
Fixpoint stripPrefix (p s : string) : option string :=
  match p, s with
  | EmptyString, _ => Some s
  | String a p', String b s' => if Ascii.eqb a b then stripPrefix p' s' else None
  | String _ _, EmptyString => None
  end.

(** [s.includes(p)]: [p] occurs somewhere in [s]. *)
Fixpoint includes (p s : string) : bool :=
  match stripPrefix p s with
  | Some _ => true
  | None => match s with
            | EmptyString => false
            | String _ s' => includes p s'
            end
  end.

(** [s.replace(p, '')] for a string pattern [p]: the first occurrence of
    [p] is removed, a string without occurrence is returned as it is. *)
Fixpoint removeFirst (p s : string) : string :=
  match stripPrefix p s with
  | Some rest => rest
  | None => match s with
            | EmptyString => EmptyString
            | String c s' => String c (removeFirst p s')
            end
  end.

(** The class [\s] of a JavaScript regular expression, on the code units
    below 256: TAB, LF, VT, FF, CR, SPACE and NBSP. *)
Definition isWhitespace (c : ascii) : bool :=
  let n := nat_of_ascii c in
  ((9 <=? n)%nat && (n <=? 13)%nat) || (n =? 32)%nat || (n =? 160)%nat.

(** The longest prefix matched by [[^\s]*], and what is left after it. *)
Fixpoint takeNonWs (s : string) : string :=
  match s with
  | EmptyString => EmptyString
  | String c s' => if isWhitespace c then EmptyString else String c (takeNonWs s')
  end.

Fixpoint dropNonWs (s : string) : string :=
  match s with
  | EmptyString => EmptyString
  | String c s' => if isWhitespace c then s else dropNonWs s'
  end.

Definition isEmpty (s : string) : bool :=
  match s with EmptyString => true | String _ _ => false end.

(** [s.match(/lit([^\s]+)/g) || []] for a literal [lit]: the matches, from
    left to right, each search starting where the previous match ended.
    [skip] counts the characters of [s] that still belong to the previous
    match (it is [lastIndex] minus the current position). *)
Fixpoint matchAllFrom (lit : string) (skip : nat) (s : string) : list string :=
  match s with
  | EmptyString => []
  | String _ s' =>
      match skip with
      | S k => matchAllFrom lit k s'
      | O =>
          match stripPrefix lit s with
          | Some rest =>
              let run := takeNonWs rest in
              if isEmpty run then matchAllFrom lit 0 s'
              else (lit +:+ run) :: matchAllFrom lit (String.length lit + String.length run - 1) s'
          | None => matchAllFrom lit 0 s'
          end
      end
  end.

Definition matchAll (lit s : string) : list string := matchAllFrom lit 0 s.

(** [chunks.join(sep)]. *)
Fixpoint join (sep : string) (chunks : list string) : string :=
  match chunks with
  | [] => EmptyString
  | [c] => c
  | c :: rest => c +:+ sep +:+ join sep rest
  end.

(** No character of the string is whitespace. *)
Fixpoint allNonWs (s : string) : bool :=
  match s with
  | EmptyString => true
  | String c s' => negb (isWhitespace c) && allNonWs s'
  end.

(** A string at which a token ends: empty, or starting with whitespace. *)
Definition boundary (s : string) : bool :=
  match s with
  | EmptyString => true
  | String c _ => isWhitespace c
  end.

End Str.

(** ** Record parser *)

Record ParsedSpf := mkParsedSpf { ipv4 : list string; includes : list string }.

(** [parseSpfRecord], lines 21-29. *)
Definition parseSpfRecord (recordStr : string) : ParsedSpf :=
  let ipv4Matches := Str.matchAll "ip4:" recordStr in
  let includeMatches := Str.matchAll "include:" recordStr in
  {| ipv4 := map (fun ip => Str.removeFirst "ip4:" ip) ipv4Matches;
     includes := map (fun inc => Str.removeFirst "include:" inc) includeMatches |}.


(** ** Data model *)

(** The object built by [lookupSpfRecords] (lines 34-40 and 47-53). *)
Inductive SpfNode : Type := mkSpfNode {
  domain : string;
  ipRanges : list string;
  children : list SpfNode;
  error : option string;
  spfRecord : option string
}.

Definition set_error (e : option string) (n : SpfNode) : SpfNode :=
  mkSpfNode (domain n) (ipRanges n) (children n) e (spfRecord n).
Definition set_ipRanges (r : list string) (n : SpfNode) : SpfNode :=
  mkSpfNode (domain n) r (children n) (error n) (spfRecord n).
Definition set_spfRecord (s : option string) (n : SpfNode) : SpfNode :=
  mkSpfNode (domain n) (ipRanges n) (children n) (error n) s.
(** [result.children.push(child)]. *)
Definition push_child (child : SpfNode) (n : SpfNode) : SpfNode :=
  mkSpfNode (domain n) (ipRanges n) (children n ++ [child]) (error n) (spfRecord n).

(** A TXT record as [resolveTxt] delivers it: an array of chunks.
    [record.toString()] joins the chunks with commas. *)
Definition TxtRecord : Type := list string.
Definition toString (record : TxtRecord) : string := Str.join "," record.

(** What the callback of [resolveTxt] receives: [err] or [records]. *)
Inductive TxtAnswer : Type :=
| TxtError (message : string)
| TxtRecords (records : list TxtRecord).

(** ** The store: [Set] objects and the log of DNS queries *)

Abbreviation Ref := nat.

Record World : Type := mkWorld {
  sets : list (gset string);   (* the Set objects, a reference is an index *)
  queries : list string        (* the domains given to resolveTxt, oldest first *)
}.

(** [new Set()]. *)
Definition Set_new (w : World) : Ref * World :=
  (length (sets w), mkWorld (sets w ++ [∅]) (queries w)).

(** [visited.has(d)]. *)
Definition Set_has (visited : Ref) (d : string) (w : World) : bool :=
  bool_decide (d ∈ default ∅ (sets w !! visited)).

(** [visited.add(d)]: the object itself is changed. *)
Definition Set_add (visited : Ref) (d : string) (w : World) : World :=
  mkWorld (alter (λ s, s ∪ {[d]}) visited (sets w)) (queries w).

(** [new Set(visited)]: a new object with the same elements. *)
Definition Set_copy (visited : Ref) (w : World) : Ref * World :=
  (length (sets w), mkWorld (sets w ++ [default ∅ (sets w !! visited)]) (queries w)).

(** ** Chain resolver *)

(** The node returned without a lookup, lines 34-40. *)
Definition terminalNode (d msg : string) : SpfNode := mkSpfNode d [] [] (Some msg) None.

(** The first record that contains the marker, as text. *)
Fixpoint firstSpf (records : list TxtRecord) : option string :=
  match records with
  | [] => None
  | record :: rest =>
      if Str.includes "v=spf1" (toString record) then Some (toString record)
      else firstSpf rest
  end.

Section Resolver.

(** The DNS oracle behind [recursiveResolver.resolveTxt]. *)
Variable dns : string → TxtAnswer.

Definition resolveTxt (d : string) (w : World) : TxtAnswer * World :=
  (dns d, mkWorld (sets w) (queries w ++ [d])).

(** The type of [lookupSpfRecords] once its fuel is fixed; [None] is
    "out of fuel". *)
Definition Resolve : Type := string → Z → Z → Ref → World → option (SpfNode * World).

(** Lines 71-79: the loop over [includes]. *)
Fixpoint forIncludes (rec : Resolve) (depth maxDepth : Z) (visited : Ref)
    (incs : list string) (result : SpfNode) (w : World) : option (SpfNode * World) :=
  match incs with
  | [] => Some (result, w)
  | includeDomain :: rest =>
      let '(copy, w1) := Set_copy visited w in
      match rec includeDomain (depth + 1) maxDepth copy w1 with
      | None => None
      | Some (childResult, w2) =>
          forIncludes rec depth maxDepth visited rest (push_child childResult result) w2
      end
  end.

(** Lines 61-82: the loop over [records], left by [break] at the first
    record that contains the marker. *)
Fixpoint forRecords (rec : Resolve) (depth maxDepth : Z) (visited : Ref)
    (records : list TxtRecord) (result : SpfNode) (w : World) : option (SpfNode * World) :=
  match records with
  | [] => Some (result, w)
  | record :: rest =>
      let recordStr := toString record in
      if Str.includes "v=spf1" recordStr then
        let p := parseSpfRecord recordStr in
        let result := set_spfRecord (Some recordStr) (set_ipRanges (ipv4 p) result) in
        forIncludes rec depth maxDepth visited (includes p) result w
      else forRecords rec depth maxDepth visited rest result w
  end.

(** [lookupSpfRecords], lines 32-87. *)
Fixpoint lookupSpfRecords (fuel : nat) (domain : string) (depth maxDepth : Z)
    (visited : Ref) (w : World) : option (SpfNode * World) :=
  match fuel with
  | O => None
  | S fuel' =>
      if (maxDepth <? depth) || Set_has visited domain w then
        Some (mkSpfNode domain [] []
                (Some (if maxDepth <? depth then "Max depth reached"
                       else "Circular reference detected"))
                None, w)
      else
        let w1 := Set_add visited domain w in
        let '(answer, w2) := resolveTxt domain w1 in
        let result := mkSpfNode domain [] [] None None in
        match answer with
        | TxtError message => Some (set_error (Some message) result, w2)
        | TxtRecords records =>
            forRecords (lookupSpfRecords fuel') depth maxDepth visited records result w2
        end
  end.

(** Fuel that always suffices: one call per level from [depth] to
    [maxDepth + 1]. *)
Definition fuel_for (depth maxDepth : Z) : nat := S (Z.to_nat (maxDepth + 1 - depth)).

(** A call with the defaults [depth = 0], [maxDepth = 10] and
    [visited = new Set()], as the two route handlers make it. *)
Definition lookupSpfRecords_default (fuel : nat) (domain : string) (w : World)
    : option (SpfNode * World) :=
  let '(visited, w1) := Set_new w in
  lookupSpfRecords fuel domain 0 10 visited w1.

(** The tree returned by a call whose [visited] holds the elements [V]:
    the call is run in a store that has this one [Set].  ([runs_resolveTree]
    below shows that no call runs out of this fuel and that the tree is the
    same in every store.) *)
Definition resolveTree (domain : string) (depth maxDepth : Z)
    (V : gset string) : SpfNode :=
  match lookupSpfRecords (fuel_for depth maxDepth) domain depth maxDepth 0%nat
          (mkWorld [V] []) with
  | Some (node, _) => node
  | None => mkSpfNode domain [] [] None None
  end.

(** The call returns without a lookup. *)
Definition cutOff (d : string) (depth maxDepth : Z) (V : gset string) : bool :=
  (maxDepth <? depth) || bool_decide (d ∈ V).

(** [runs d depth maxDepth V node]: with enough fuel, in every store and
    for every reference [l] to a [Set] with the elements [V], the call
    returns [node]; no [Set] of the store other than [l] is changed, and
    [l] gains [d] unless the call is cut off. *)
Definition runs (d : string) (depth maxDepth : Z) (V : gset string) (node : SpfNode) : Prop :=
  ∀ (n : nat) (l : Ref) (w : World),
    (fuel_for depth maxDepth ≤ n)%nat → sets w !! l = Some V →
    ∃ w', lookupSpfRecords n d depth maxDepth l w = Some (node, w')
        ∧ (∀ l' : Ref, l' ≠ l → (l' < length (sets w))%nat → sets w' !! l' = sets w !! l')
        ∧ sets w' !! l = Some (if cutOff d depth maxDepth V then V else V ∪ {[d]}).

(** The node a call is expected to return, its children being the trees
    of the include targets. *)
Definition expected (d : string) (depth maxDepth : Z) (V : gset string) : SpfNode :=
  if maxDepth <? depth then terminalNode d "Max depth reached"
  else if bool_decide (d ∈ V) then terminalNode d "Circular reference detected"
  else match dns d with
       | TxtError message => mkSpfNode d [] [] (Some message) None
       | TxtRecords records =>
           match firstSpf records with
           | None => mkSpfNode d [] [] None None
           | Some recordStr =>
               let p := parseSpfRecord recordStr in
               mkSpfNode d (ipv4 p)
                 (map (λ inc, resolveTree inc (depth + 1) maxDepth (V ∪ {[d]})) (includes p))
                 None (Some recordStr)
           end
       end.

End Resolver.

(** ** Range collector *)

Module Entry.
Record t : Type := mk { range : string; domain : string }.
End Entry.
Abbreviation RangeEntry := Entry.t.

(** [collectAllIpRanges], lines 90-103.  The array [ranges] is extended in
    place and handed on, so it is threaded through the calls. *)
Fixpoint collectAllIpRanges (tree : SpfNode) (ranges : list RangeEntry) : list RangeEntry :=
  let ranges :=
    if (0 <? length (ipRanges tree))%nat
    then ranges ++ map (λ range, Entry.mk range (domain tree)) (ipRanges tree)
    else ranges in
  fold_left (λ ranges child, collectAllIpRanges child ranges) (children tree) ranges.

(** ** IP matcher *)

(** What a call of the imported [ipRangeCheck] does: it returns a boolean
    or throws an error with a message. *)
Inductive CheckOutcome : Type :=
| Returns (b : bool)
| Throws (message : string).

(** A call [console.warn(text, message)]. *)
Record Warning : Type := mkWarning { warn_text : string; warn_message : string }.

Record CheckIpResponse : Type := mkCheckIpResponse {
  resp_ip : string;
  resp_domain : string;
  matches : list RangeEntry;
  isAuthorized : bool
}.

Section Matcher.

(** [require('ip-range-check')], a package outside the repository. *)
Variable ipRangeCheck : string → string → CheckOutcome.

(** Lines 109-118: the loop over [ranges], with the array [matches] and
    the console as state. *)
Fixpoint forRanges (ip : string) (ranges : list RangeEntry)
    (matches : list RangeEntry) (console : list Warning)
    : list RangeEntry * list Warning :=
  match ranges with
  | [] => (matches, console)
  | Entry.mk range domain :: rest =>
      match ipRangeCheck ip range with
      | Returns true => forRanges ip rest (matches ++ [Entry.mk range domain]) console
      | Returns false => forRanges ip rest matches console
      | Throws message =>
          forRanges ip rest matches
            (console ++ [mkWarning ("Invalid range " +:+ range +:+ ":") message])
      end
  end.

(** [checkIpInRanges], lines 106-121, with the warnings it prints. *)
Definition checkIpInRanges (ip : string) (ranges : list RangeEntry)
    : list RangeEntry * list Warning :=
  forRanges ip ranges [] [].

(** Lines 156-164 of the [/api/check-ip] handler, from the resolved tree
    to the response body. *)
Definition checkIpBody (ip domain : string) (spfTree : SpfNode)
    : CheckIpResponse * list Warning :=
  let allRanges := collectAllIpRanges spfTree [] in
  let '(matches, console) := checkIpInRanges ip allRanges in
  (mkCheckIpResponse ip domain matches (0 <? length matches)%nat, console).

(** The entry is reported as a match. *)
Definition isMatch (ip : string) (e : RangeEntry) : bool :=
  match ipRangeCheck ip (Entry.range e) with
  | Returns true => true
  | _ => false
  end.

(** The warning printed for the entry, if its check throws. *)
Definition warningFor (ip : string) (e : RangeEntry) : list Warning :=
  match ipRangeCheck ip (Entry.range e) with
  | Throws message => [mkWarning ("Invalid range " +:+ Entry.range e +:+ ":") message]
  | Returns _ => []
  end.

End Matcher.

(** ** Notions the specification speaks of *)

(** Whitespace-delimited tokens of a string; [cur] holds the characters of
    the token being read. *)
Fixpoint tokensFrom (cur : string) (s : string) : list string :=
  match s with
  | EmptyString => if Str.isEmpty cur then [] else [cur]
  | String c s' =>
      if Str.isWhitespace c
      then (if Str.isEmpty cur then [] else [cur]) ++ tokensFrom EmptyString s'
      else tokensFrom (cur +:+ String c EmptyString) s'
  end.

Definition tokens (s : string) : list string := tokensFrom EmptyString s.

(** The value of a token of the form [lit<value>], with a value of at least
    one character. *)
Definition tokenValue (lit tok : string) : list string :=
  match Str.stripPrefix lit tok with
  | Some v => if Str.isEmpty v then [] else [v]
  | None => []
  end.

(** The parser as the specification words it: the values of the tokens of
    the form [ip4:<value>] and [include:<value>]. *)
Definition parseTokens (recordStr : string) : ParsedSpf :=
  {| ipv4 := flat_map (tokenValue "ip4:") (tokens recordStr);
     includes := flat_map (tokenValue "include:") (tokens recordStr) |}.

(** What follows the leftmost place of a token where [lit] occurs with at
    least one character after it. *)
Fixpoint valueAfter (lit tok : string) : list string :=
  match Str.stripPrefix lit tok with
  | Some (String c v) => [String c v]
  | _ => match tok with
         | EmptyString => []
         | String _ tok' => valueAfter lit tok'
         end
  end.

(** Depth-first flattening, a node before its children. *)
Fixpoint preorder (tree : SpfNode) : list RangeEntry :=
  map (λ range, Entry.mk range (domain tree)) (ipRanges tree)
  ++ flat_map preorder (children tree).

(** [PathTo root anc n]: [n] is a node of the tree [root], and [anc] lists
    the nodes above it, from [root] down to its parent. *)
Inductive PathTo : SpfNode → list SpfNode → SpfNode → Prop :=
| path_here n : PathTo n [] n
| path_step n c anc m : c ∈ children n → PathTo c anc m → PathTo n (n :: anc) m.

(** ** Request validation and the route handlers *)

Module Regex.

(** A character class [[a-b...]]: a list of ranges, a single character
    [c] being the range from [c] to [c]. *)
Definition CharClass : Type := list (ascii * ascii).

Definition inClass (cls : CharClass) (c : ascii) : bool :=
  existsb (λ r, (nat_of_ascii (fst r) <=? nat_of_ascii c)%nat
                && (nat_of_ascii c <=? nat_of_ascii (snd r))%nat) cls.

(** The constructs the two patterns of [server.js] are written with. *)
Inductive t : Type :=
| Class (cls : CharClass)        (* [...] and a literal character *)
| Seq (r1 r2 : t)                (* r1 r2 *)
| Alt (r1 r2 : t)                (* r1|r2 *)
| Opt (r : t)                    (* r? *)
| Times (n : nat) (r : t)        (* (?:r){n} *)
| Plus (cls : CharClass).        (* [...]+ *)

(** One or more characters of the class, the longest run first, then [k]
    on what is left. *)
Fixpoint plusFrom (cls : CharClass) (s : string) (k : string → bool) : bool :=
  match s with
  | EmptyString => false
  | String c s' => inClass cls c && (plusFrom cls s' k || k s')
  end.

(** A backtracking matcher: [matchK r s k] matches [r] at the start of
    [s], trying the alternatives from left to right, and hands what is
    left to [k]. *)
Fixpoint matchK (r : t) (s : string) (k : string → bool) : bool :=
  match r with
  | Class cls =>
      match s with
      | EmptyString => false
      | String c s' => inClass cls c && k s'
      end
  | Seq r1 r2 => matchK r1 s (λ s', matchK r2 s' k)
  | Alt r1 r2 => matchK r1 s k || matchK r2 s k
  | Opt r1 => matchK r1 s k || k s
  | Times n r1 => Nat.iter n (λ k' s', matchK r1 s' k') k s
  | Plus cls => plusFrom cls s k
  end.

(** [/^r$/.test(s)]. *)
Definition test (r : t) (s : string) : bool := matchK r s Str.isEmpty.

Definition chr (c : ascii) : t := Class [(c, c)].
Definition digit : CharClass := [("0"%char, "9"%char)].

End Regex.

(** [[a-zA-Z0-9.-]], the class of line 129. *)
Definition domainChars : Regex.CharClass :=
  [("a"%char, "z"%char); ("A"%char, "Z"%char); ("0"%char, "9"%char);
   ("."%char, "."%char); ("-"%char, "-"%char)].

(** [/^[a-zA-Z0-9.-]+$/], line 129. *)
Definition domainRegex : Regex.t := Regex.Plus domainChars.

(** [25[0-5]|2[0-4][0-9]|[01]?[0-9][0-9]?], the group of line 149. *)
Definition octetRegex : Regex.t :=
  Regex.Alt
    (Regex.Seq (Regex.chr "2") (Regex.Seq (Regex.chr "5") (Regex.Class [("0"%char, "5"%char)])))
    (Regex.Alt
       (Regex.Seq (Regex.chr "2")
          (Regex.Seq (Regex.Class [("0"%char, "4"%char)]) (Regex.Class Regex.digit)))
       (Regex.Seq (Regex.Opt (Regex.Class [("0"%char, "1"%char)]))
          (Regex.Seq (Regex.Class Regex.digit) (Regex.Opt (Regex.Class Regex.digit))))).

(** [ipRegex], line 149. *)
Definition ipRegex : Regex.t :=
  Regex.Seq (Regex.Times 3 (Regex.Seq octetRegex (Regex.chr "."))) octetRegex.

(** What a handler sends: [res.status(s).json({ error })], or [res.json]
    of a tree or of the result of a check. *)
Inductive HttpResponse : Type :=
| RespError (status : nat) (error : string)
| RespTree (spfTree : SpfNode)
| RespCheck (body : CheckIpResponse).

(** The fields [ip] and [domain] of [req.body]: absent, or a string. *)
Record CheckIpRequest : Type := mkCheckIpRequest {
  req_ip : option string;
  req_domain : option string
}.

(** [!x] for an absent or string value. *)
Definition falsy (x : option string) : bool :=
  match x with
  | None => true
  | Some s => Str.isEmpty s
  end.

Section Handlers.

Variable dns : string → TxtAnswer.
Variable ipRangeCheck : string → string → CheckOutcome.

(** The handler of [GET /api/spf/:domain], lines 124-138.  Nothing in the
    model throws, so the [catch] branch is not taken. *)
Definition getSpf (fuel : nat) (domain : string) (w : World)
    : option (HttpResponse * World) :=
  if Str.isEmpty domain || negb (Regex.test domainRegex domain) then
    Some (RespError 400 "Invalid domain format", w)
  else
    match lookupSpfRecords_default dns fuel domain w with
    | None => None
    | Some (spfTree, w') => Some (RespTree spfTree, w')
    end.

(** The handler of [POST /api/check-ip], lines 140-168, with the warnings
    it prints. *)
Definition postCheckIp (fuel : nat) (req : CheckIpRequest) (w : World)
    : option (HttpResponse * list Warning * World) :=
  if falsy (req_ip req) || falsy (req_domain req) then
    Some (RespError 400 "IP and domain are required", [], w)
  else
    let ip := default EmptyString (req_ip req) in
    let domain := default EmptyString (req_domain req) in
    if negb (Regex.test ipRegex ip) then
      Some (RespError 400 "Invalid IP address format", [], w)
    else
      match lookupSpfRecords_default dns fuel domain w with
      | None => None
      | Some (spfTree, w') =>
          let '(body, console) := checkIpBody ipRangeCheck ip domain spfTree in
          Some (RespCheck body, console, w')
      end.

End Handlers.

(** ** Further notions used in the statements *)

(** The language of a pattern. *)
Fixpoint timesLang (L : string → Prop) (n : nat) (s : string) : Prop :=
  match n with
  | O => s = EmptyString
  | S n' => ∃ x y, s = x +:+ y ∧ L x ∧ timesLang L n' y
  end.

Fixpoint allIn (cls : Regex.CharClass) (s : string) : bool :=
  match s with
  | EmptyString => true
  | String c s' => Regex.inClass cls c && allIn cls s'
  end.

Fixpoint lang (r : Regex.t) (s : string) : Prop :=
  match r with
  | Regex.Class cls => ∃ c, s = String c EmptyString ∧ Regex.inClass cls c = true
  | Regex.Seq r1 r2 => ∃ x y, s = x +:+ y ∧ lang r1 x ∧ lang r2 y
  | Regex.Alt r1 r2 => lang r1 s ∨ lang r2 s
  | Regex.Opt r1 => s = EmptyString ∨ lang r1 s
  | Regex.Times n r1 => timesLang (lang r1) n s
  | Regex.Plus cls => s ≠ EmptyString ∧ allIn cls s = true
  end.

(** The character is one of [0] ... [9]. *)
Definition isDigitCode (c : ascii) : Prop := (48 ≤ nat_of_ascii c ∧ nat_of_ascii c ≤ 57)%nat.

(** The number a string of decimal digits stands for. *)
Definition digitValue (c : ascii) : nat := nat_of_ascii c - 48.

Fixpoint decimalFrom (acc : nat) (s : string) : nat :=
  match s with
  | EmptyString => acc
  | String c s' => decimalFrom (10 * acc + digitValue c) s'
  end.

Definition decimal (s : string) : nat := decimalFrom 0 s.

(** One to three decimal digits that stand for a number up to 255. *)
Definition isOctet (s : string) : bool :=
  negb (Str.isEmpty s) && (String.length s <=? 3)%nat
  && allIn Regex.digit s && (decimal s <=? 255)%nat.

(** What a node holds follows from its own record. *)
Definition followsRecord (x : SpfNode) : Prop :=
  match spfRecord x with
  | Some recordStr =>
      Str.includes "v=spf1" recordStr = true
      ∧ error x = None
      ∧ ipRanges x = ipv4 (parseSpfRecord recordStr)
      ∧ domain <$> children x = includes (parseSpfRecord recordStr)
  | None => ipRanges x = [] ∧ children x = []
  end.

(** The domains a call looks up, in the order of the lookups, read off
    the tree it returns: a node that was cut off stands for no lookup. *)
Fixpoint lookups (depth maxDepth : Z) (V : gset string) (tree : SpfNode) : list string :=
  if cutOff (domain tree) depth maxDepth V then []
  else domain tree
       :: flat_map (lookups (depth + 1) maxDepth (V ∪ {[domain tree]})) (children tree).

(** The number of nodes of a tree. *)
Fixpoint treeSize (tree : SpfNode) : nat :=
  S (foldr (λ child n, (treeSize child + n)%nat) 0%nat (children tree)).

(** ** Example oracles *)

Definition emptyWorld : World := mkWorld [] [].

(** [a.com] includes [b.com], which includes [a.com] and [c.com]. *)
Definition dnsAB (d : string) : TxtAnswer :=
  if String.eqb d "a.com" then TxtRecords [["v=spf1 ip4:10.0.0.0/8 include:b.com -all"]]
  else if String.eqb d "b.com"
       then TxtRecords [["hello"]; ["v=spf1 include:a.com include:c.com"]; ["v=spf1 ip4:9.9.9.9"]]
  else TxtError "queryTxt ENOTFOUND c.com".

(** [root.com] includes [x.com] and [y.com], which both include [z.com];
    the lookup of [x.com] succeeds, the one of [w.com] fails. *)
Definition dnsDiamond (d : string) : TxtAnswer :=
  if String.eqb d "root.com" then TxtRecords [["v=spf1 include:w.com include:x.com include:y.com"]]
  else if String.eqb d "x.com" then TxtRecords [["v=spf1 include:z.com"]]
  else if String.eqb d "y.com" then TxtRecords [["v=spf1 include:z.com"]]
  else if String.eqb d "z.com" then TxtRecords [["v=spf1 ip4:192.0.2.0/24 ~all"]]
  else TxtError "queryTxt ENOTFOUND".

(** The tree of the cycle test: [a.com] includes [b.com], which includes
    [a.com] again. *)
Definition treeAB : SpfNode :=
  mkSpfNode "a.com" ["10.0.0.0/8"]
    [mkSpfNode "b.com" []
       [terminalNode "a.com" "Circular reference detected";
        mkSpfNode "c.com" [] [] (Some "queryTxt ENOTFOUND c.com") None]
       None (Some "v=spf1 include:a.com include:c.com")]
    None (Some "v=spf1 ip4:10.0.0.0/8 include:b.com -all").

(** The same chain resolved with [maxDepth = 1]. *)
Definition treeABshallow : SpfNode :=
  mkSpfNode "a.com" ["10.0.0.0/8"]
    [mkSpfNode "b.com" []
       [terminalNode "a.com" "Max depth reached";
        terminalNode "c.com" "Max depth reached"]
       None (Some "v=spf1 include:a.com include:c.com")]
    None (Some "v=spf1 ip4:10.0.0.0/8 include:b.com -all").

(** The tree of [root.com], whose includes [x.com] and [y.com] both
    include [z.com]. *)
Definition treeDiamond : SpfNode :=
  let z := mkSpfNode "z.com" ["192.0.2.0/24"] [] None (Some "v=spf1 ip4:192.0.2.0/24 ~all") in
  mkSpfNode "root.com" []
    [mkSpfNode "w.com" [] [] (Some "queryTxt ENOTFOUND") None;
     mkSpfNode "x.com" [] [z] None (Some "v=spf1 include:z.com");
     mkSpfNode "y.com" [] [z] None (Some "v=spf1 include:z.com")]
    None (Some "v=spf1 include:w.com include:x.com include:y.com").

(** A stand-in for the package: it accepts [10.0.0.0/8] for every
    address and throws on [not-a-range]. *)
Definition sampleCheck (ip range : string) : CheckOutcome :=
  if String.eqb range "not-a-range" then Throws "Invalid CIDR"
  else Returns (String.eqb range "10.0.0.0/8").

(** An oracle that has a record for a name the pattern of the other route
    rejects. *)
Definition dnsOdd (d : string) : TxtAnswer :=
  if String.eqb d "exam ple.com" then TxtRecords [["v=spf1 ip4:10.0.0.0/8"]]
  else TxtError "queryTxt ENOTFOUND".

(** ** The resolver on the numbers of JavaScript *)

(** [depth] and [maxDepth] are numbers of JavaScript, that is IEEE 754
    doubles: [depth + 1] is the rounded sum and [depth > maxDepth] the
    comparison of doubles.  The definitions above take them as integers,
    which is the same as long as every sum is exact (integers of magnitude
    up to 2^53); the ones below take them as they are. *)
Module Double.

Section Resolver.

Variable dns : string → TxtAnswer.

Definition Resolve : Type :=
  string → float → float → Ref → World → option (SpfNode * World).

(** Lines 71-79. *)
Fixpoint forIncludes (rec : Resolve) (depth maxDepth : float) (visited : Ref)
    (incs : list string) (result : SpfNode) (w : World) : option (SpfNode * World) :=
  match incs with
  | [] => Some (result, w)
  | includeDomain :: rest =>
      let '(copy, w1) := Set_copy visited w in
      match rec includeDomain (PrimFloat.add depth 1) maxDepth copy w1 with
      | None => None
      | Some (childResult, w2) =>
          forIncludes rec depth maxDepth visited rest (push_child childResult result) w2
      end
  end.

(** Lines 61-82. *)
Fixpoint forRecords (rec : Resolve) (depth maxDepth : float) (visited : Ref)
    (records : list TxtRecord) (result : SpfNode) (w : World) : option (SpfNode * World) :=
  match records with
  | [] => Some (result, w)
  | record :: rest =>
      let recordStr := toString record in
      if Str.includes "v=spf1" recordStr then
        let p := parseSpfRecord recordStr in
        let result := set_spfRecord (Some recordStr) (set_ipRanges (ipv4 p) result) in
        forIncludes rec depth maxDepth visited (includes p) result w
      else forRecords rec depth maxDepth visited rest result w
  end.

(** [lookupSpfRecords], lines 32-87. *)
Fixpoint lookupSpfRecords (fuel : nat) (domain : string) (depth maxDepth : float)
    (visited : Ref) (w : World) : option (SpfNode * World) :=
  match fuel with
  | O => None
  | S fuel' =>
      if PrimFloat.ltb maxDepth depth || Set_has visited domain w then
        Some (mkSpfNode domain [] []
                (Some (if PrimFloat.ltb maxDepth depth then "Max depth reached"
                       else "Circular reference detected"))
                None, w)
      else
        let w1 := Set_add visited domain w in
        let '(answer, w2) := resolveTxt dns domain w1 in
        let result := mkSpfNode domain [] [] None None in
        match answer with
        | TxtError message => Some (set_error (Some message) result, w2)
        | TxtRecords records =>
            forRecords (lookupSpfRecords fuel') depth maxDepth visited records result w2
        end
  end.

End Resolver.

(** The double reached from 0 by adding 1 [k] times. *)
Fixpoint ofNat (k : nat) : float :=
  match k with
  | O => 0%float
  | S k' => PrimFloat.add (ofNat k') 1
  end.

(** 2^53, the first double [x] with [x + 1 = x]. *)
Definition two53 : float := 9007199254740992%float.

End Double.


(** An oracle in which every domain [d] includes the longer domain [xd],
    so that no domain comes twice on a path. *)
Definition dnsChain (d : string) : TxtAnswer :=
  TxtRecords [["v=spf1 include:x" +:+ d]].




(** * Theorems *)

(** ** Strings and the scanner *)

Module StrFacts.
Import Str.

#[local] Arguments String.append !_ _ / : simpl nomatch.

Lemma append_nil_r (s : string) : s +:+ EmptyString = s.
Proof. induction s as [|c s IH]; simpl; [done | by rewrite IH]. Qed.

Lemma append_assoc (a b c : string) : (a +:+ b) +:+ c = a +:+ (b +:+ c).
Proof. induction a as [|x a IH]; simpl; [done | by rewrite IH]. Qed.

Lemma length_append (a b : string) :
  String.length (a +:+ b) = (String.length a + String.length b)%nat.
Proof. induction a as [|x a IH]; simpl; [done | by rewrite IH]. Qed.

Lemma stripPrefix_append (p r : string) : stripPrefix p (p +:+ r) = Some r.
Proof.
  induction p as [|a p IH]; simpl; [done |].
  by rewrite Ascii.eqb_refl.
Qed.

Lemma stripPrefix_Some (p s r : string) : stripPrefix p s = Some r → s = p +:+ r.
Proof.
  revert s; induction p as [|a p IH]; intros [|b s]; simpl; try congruence.
  destruct (Ascii.eqb a b) eqn:E; [|done].
  apply Ascii.eqb_eq in E as ->. intros H. by rewrite (IH _ H).
Qed.

Lemma removeFirst_append (p r : string) : removeFirst p (p +:+ r) = r.
Proof.
  assert (H : ∀ s, removeFirst p s =
    match stripPrefix p s with
    | Some rest => rest
    | None => match s with
              | EmptyString => EmptyString
              | String c s' => String c (removeFirst p s')
              end
    end) by (by intros []).
  by rewrite H, stripPrefix_append.
Qed.

Lemma takeNonWs_token (t s : string) :
  allNonWs t = true → boundary s = true → takeNonWs (t +:+ s) = t.
Proof.
  intros Ht Hs. induction t as [|c t IH]; simpl in *.
  - destruct s as [|c s]; [done |]. simpl in *. by rewrite Hs.
  - apply andb_true_iff in Ht as [Hc Ht]. apply negb_true_iff in Hc.
    rewrite Hc. by rewrite IH.
Qed.

Lemma take_drop (s : string) : takeNonWs s +:+ dropNonWs s = s.
Proof.
  induction s as [|c s IH]; simpl; [done |].
  destruct (isWhitespace c); simpl; [done | by rewrite IH].
Qed.

Lemma takeNonWs_allNonWs (s : string) : allNonWs (takeNonWs s) = true.
Proof.
  induction s as [|c s IH]; simpl; [done |].
  destruct (isWhitespace c) eqn:E; simpl; [done | by rewrite E, IH].
Qed.

Lemma dropNonWs_boundary (s : string) : boundary (dropNonWs s) = true.
Proof.
  induction s as [|c s IH]; simpl; [done |].
  by destruct (isWhitespace c) eqn:E.
Qed.

Lemma allNonWs_append (a b : string) :
  allNonWs (a +:+ b) = allNonWs a && allNonWs b.
Proof. induction a as [|x a IH]; simpl; [done | by rewrite IH, andb_assoc]. Qed.

(** The skipped characters play no part. *)
Lemma matchAllFrom_skip (lit t s : string) :
  matchAllFrom lit (String.length t) (t +:+ s) = matchAllFrom lit 0 s.
Proof. induction t as [|c t IH]; simpl; [done | apply IH]. Qed.

Section Scanner.

Variable lit : string.
Hypothesis lit_nonempty : isEmpty lit = false.
Hypothesis lit_nonws : allNonWs lit = true.

Lemma stripPrefix_whitespace (c : ascii) (s : string) :
  isWhitespace c = true → stripPrefix lit (String c s) = None.
Proof using lit_nonempty lit_nonws.
  intros Hc. destruct lit as [|a p]; [done |]. simpl in *.
  destruct (Ascii.eqb a c) eqn:E; [|done].
  apply Ascii.eqb_eq in E as ->. by rewrite Hc in lit_nonws.
Qed.

(** A prefix without whitespace stays inside the token. *)
Lemma stripPrefix_token (t s rest : string) :
  boundary s = true → stripPrefix lit (t +:+ s) = Some rest →
  ∃ r, stripPrefix lit t = Some r ∧ rest = r +:+ s.
Proof using lit_nonempty lit_nonws.
  clear lit_nonempty. revert t lit_nonws.
  induction lit as [|a p IH]; intros t Hp Hs H; simpl in *.
  - exists t. by inversion H.
  - apply andb_true_iff in Hp as [Ha Hp]. apply negb_true_iff in Ha.
    destruct t as [|b t]; simpl in *.
    + destruct s as [|b s]; [done |]. simpl in Hs.
      destruct (Ascii.eqb a b) eqn:E; [|done].
      apply Ascii.eqb_eq in E as ->. congruence.
    + destruct (Ascii.eqb a b); [|done]. by apply IH.
Qed.

Lemma stripPrefix_token_None (t s : string) :
  stripPrefix lit (t +:+ s) = None → stripPrefix lit t = None.
Proof.
  intros H. destruct (stripPrefix lit t) as [r|] eqn:E; [|done].
  apply stripPrefix_Some in E as ->.
  by rewrite append_assoc, stripPrefix_append in H.
Qed.

Lemma matchAll_whitespace (c : ascii) (s : string) :
  isWhitespace c = true → matchAll lit (String c s) = matchAll lit s.
Proof using lit_nonempty lit_nonws.
  intros Hc. unfold matchAll. cbn [matchAllFrom].
  by rewrite stripPrefix_whitespace.
Qed.

(** Within a token the scanner finds at most one match: the rest of the
    token from the leftmost place where [lit] has a character after it. *)
Lemma matchAll_token (t s : string) :
  allNonWs t = true → boundary s = true →
  matchAll lit (t +:+ s) = map (String.append lit) (valueAfter lit t) ++ matchAll lit s.
Proof using lit_nonempty lit_nonws.
  intros Ht Hs. induction t as [|c t IH].
  { simpl. by destruct lit. }
  cbn [allNonWs] in Ht. apply andb_true_iff in Ht as [Hc Ht].
  specialize (IH Ht). unfold matchAll in *.
  change (String c t +:+ s) with (String c (t +:+ s)).
  cbn [matchAllFrom valueAfter].
  change (String c (t +:+ s)) with (String c t +:+ s).
  destruct (stripPrefix lit (String c t +:+ s)) as [rest|] eqn:E.
  - destruct (stripPrefix_token _ _ _ Hs E) as (r & Er & ->).
    rewrite Er.
    assert (Hr : allNonWs r = true).
    { apply stripPrefix_Some in Er.
      assert (H : allNonWs (String c t) = true) by (simpl; by rewrite Hc, Ht).
      rewrite Er, allNonWs_append in H. by apply andb_true_iff in H as [_ H]. }
    rewrite (takeNonWs_token _ _ Hr Hs).
    destruct r as [|x v]; [exact IH |].
    cbn [isEmpty map app]. f_equal.
    apply stripPrefix_Some in Er.
    assert (Hlen : (String.length lit + String.length (String x v) - 1)%nat = String.length t).
    { apply (f_equal String.length) in Er. rewrite length_append in Er.
      simpl in *. lia. }
    rewrite Hlen. apply matchAllFrom_skip.
  - rewrite (stripPrefix_token_None _ _ E). exact IH.
Qed.

End Scanner.

Lemma tokensFrom_token (cur t s : string) :
  allNonWs t = true → tokensFrom cur (t +:+ s) = tokensFrom (cur +:+ t) s.
Proof.
  revert cur. induction t as [|c t IH]; intros cur Ht; simpl in *.
  - by rewrite append_nil_r.
  - apply andb_true_iff in Ht as [Hc Ht]. apply negb_true_iff in Hc.
    rewrite Hc, (IH _ Ht), append_assoc. done.
Qed.

Lemma tokensFrom_boundary (cur s : string) :
  boundary s = true →
  tokensFrom cur s = (if isEmpty cur then [] else [cur]) ++ tokens s.
Proof.
  intros Hs. destruct s as [|c s]; simpl in *.
  - by rewrite app_nil_r.
  - unfold tokens. simpl. by rewrite Hs.
Qed.

Lemma tokens_whitespace (c : ascii) (s : string) :
  isWhitespace c = true → tokens (String c s) = tokens s.
Proof. intros Hc. unfold tokens. simpl. by rewrite Hc. Qed.

Lemma tokens_token (c : ascii) (t s : string) :
  allNonWs (String c t) = true → boundary s = true →
  tokens (String c t +:+ s) = String c t :: tokens s.
Proof.
  intros Ht Hs. unfold tokens at 1.
  rewrite (tokensFrom_token _ _ _ Ht). simpl (EmptyString +:+ _).
  by rewrite (tokensFrom_boundary _ _ Hs).
Qed.

(** The scanner, token by token. *)
Lemma matchAll_tokens (lit s : string) :
  isEmpty lit = false → allNonWs lit = true →
  matchAll lit s = map (String.append lit) (flat_map (valueAfter lit) (tokens s)).
Proof.
  intros Hne Hnw.
  remember (String.length s) as n eqn:Hn.
  revert s Hn. induction (lt_wf n) as [n _ IH]. intros s Hn.
  destruct s as [|c s]; [done |].
  destruct (isWhitespace c) eqn:Hc.
  - rewrite (matchAll_whitespace _ Hne Hnw), tokens_whitespace by done.
    apply (IH (String.length s)); [simpl in Hn; lia | done].
  - pose proof (take_drop (String c s)) as Hsplit.
    pose proof (takeNonWs_allNonWs (String c s)) as Htok.
    pose proof (dropNonWs_boundary (String c s)) as Hb.
    simpl takeNonWs in *. rewrite Hc in *.
    cbn [dropNonWs] in *. rewrite Hc in *.
    rewrite <- Hsplit.
    rewrite (matchAll_token _ Hne Hnw _ _ Htok Hb).
    rewrite (tokens_token _ _ _ Htok Hb).
    cbn [flat_map]. rewrite map_app. f_equal.
    apply (IH (String.length (dropNonWs s))); [|done].
    apply (f_equal String.length) in Hsplit.
    change (String c (takeNonWs s) +:+ dropNonWs s)
      with (String c (takeNonWs s +:+ dropNonWs s)) in Hsplit.
    simpl in Hsplit, Hn. rewrite length_append in Hsplit. lia.
Qed.

Lemma map_removeFirst_append (lit : string) (vs : list string) :
  map (removeFirst lit) (map (String.append lit) vs) = vs.
Proof.
  induction vs as [|v vs IH]; simpl; [done |].
  by rewrite removeFirst_append, IH.
Qed.

End StrFacts.

(** ** The resolver *)

Section ResolverFacts.

Variable dns : string → TxtAnswer.

Lemma Set_has_contents (l : Ref) (d : string) (w : World) (V : gset string) :
  sets w !! l = Some V → Set_has l d w = bool_decide (d ∈ V).
Proof. unfold Set_has. by intros ->. Qed.

Lemma forRecords_firstSpf (rec : Resolve) depth maxDepth l records result w :
  forRecords rec depth maxDepth l records result w =
  match firstSpf records with
  | None => Some (result, w)
  | Some recordStr =>
      let p := parseSpfRecord recordStr in
      forIncludes rec depth maxDepth l (includes p)
        (set_spfRecord (Some recordStr) (set_ipRanges (ipv4 p) result)) w
  end.
Proof.
  induction records as [|record rest IH]; simpl; [done |].
  by destruct (Str.includes "v=spf1" (toString record)).
Qed.

(** The loop over the include targets: every target is resolved against a
    copy of the same set, and the sets that existed before are left as they
    were. *)
Lemma forIncludes_spec (rec : Resolve) depth maxDepth (V' : gset string)
    (f : string → SpfNode) :
  (∀ inc (l : Ref) (w : World), sets w !! l = Some V' →
     ∃ w', rec inc (depth + 1) maxDepth l w = Some (f inc, w')
         ∧ (∀ l' : Ref, l' ≠ l → (l' < length (sets w))%nat → sets w' !! l' = sets w !! l')) →
  ∀ incs result (l : Ref) (w : World), sets w !! l = Some V' →
    ∃ w', forIncludes rec depth maxDepth l incs result w =
            Some (mkSpfNode (domain result) (ipRanges result)
                    (children result ++ map f incs) (error result) (spfRecord result), w')
        ∧ (∀ l' : Ref, (l' < length (sets w))%nat → sets w' !! l' = sets w !! l').
Proof.
  intros Hrec incs. induction incs as [|inc rest IH]; intros result l w Hl.
  - exists w. simpl. rewrite app_nil_r. by destruct result.
  - cbn [forIncludes Set_copy]. rewrite Hl.
    change (default ∅ (Some V')) with V'.
    set (w1 := mkWorld (sets w ++ [V']) (queries w)).
    pose proof (lookup_lt_Some _ _ _ Hl) as Hlt.
    destruct (Hrec inc (length (sets w)) w1) as (w2 & -> & Hframe).
    { subst w1. simpl. by rewrite list_lookup_middle. }
    assert (Hkeep : ∀ l' : Ref, (l' < length (sets w))%nat → sets w2 !! l' = sets w !! l').
    { intros l' Hl'. rewrite Hframe; [| lia | subst w1; simpl; rewrite length_app; lia].
      subst w1. simpl. by rewrite lookup_app_l. }
    destruct (IH (push_child (f inc) result) l w2) as (w' & -> & Hframe').
    { by rewrite Hkeep. }
    exists w'. split.
    + simpl. by rewrite <- app_assoc.
    + intros l' Hl'. rewrite Hframe'; [by apply Hkeep |].
      apply lookup_lt_is_Some. rewrite Hkeep by done. by apply lookup_lt_is_Some.
Qed.

(** One call, given that the calls for the include targets run. *)
Lemma runs_step (d : string) (depth maxDepth : Z) (V : gset string) :
  (depth ≤ maxDepth → ∀ inc V',
     runs dns inc (depth + 1) maxDepth V' (resolveTree dns inc (depth + 1) maxDepth V')) →
  runs dns d depth maxDepth V (expected dns d depth maxDepth V).
Proof.
  intros Hkids n l w Hn Hl. unfold fuel_for in Hn.
  destruct n as [|n]; [lia |]. cbn [lookupSpfRecords].
  rewrite (Set_has_contents _ _ _ _ Hl). unfold expected, cutOff.
  destruct (maxDepth <? depth) eqn:Hd; cbn [orb].
  { exists w. by rewrite Hl. }
  destruct (bool_decide (d ∈ V)) eqn:Hv.
  { exists w. by rewrite Hl. }
  apply Z.ltb_ge in Hd.
  pose proof (lookup_lt_Some _ _ _ Hl) as Hlt.
  cbn [resolveTxt Set_add sets queries].
  set (w2 := mkWorld (alter (λ s, s ∪ {[d]}) l (sets w)) (queries w ++ [d])).
  assert (Hl2 : sets w2 !! l = Some (V ∪ {[d]})).
  { subst w2. cbn [sets]. by rewrite list_lookup_alter_eq, Hl. }
  assert (Hother : ∀ l' : Ref, l' ≠ l → sets w2 !! l' = sets w !! l').
  { intros l' Hne. subst w2. cbn [sets]. by rewrite list_lookup_alter_ne. }
  destruct (dns d) as [message|records].
  { exists w2. split; [done |]. split; [|done]. intros l' Hne _. by apply Hother. }
  rewrite forRecords_firstSpf.
  destruct (firstSpf records) as [recordStr|].
  2:{ exists w2. split; [done |]. split; [|done]. intros l' Hne _. by apply Hother. }
  cbn zeta.
  destruct (forIncludes_spec (lookupSpfRecords dns n) depth maxDepth (V ∪ {[d]})
              (λ inc, resolveTree dns inc (depth + 1) maxDepth (V ∪ {[d]}))) with
    (incs := includes (parseSpfRecord recordStr))
    (result := set_spfRecord (Some recordStr)
                 (set_ipRanges (ipv4 (parseSpfRecord recordStr)) (mkSpfNode d [] [] None None)))
    (l := l) (w := w2) as (w' & -> & Hframe).
  { intros inc l0 w0 Hl0.
    destruct (Hkids Hd inc (V ∪ {[d]}) n l0 w0) as (w0' & E & F & _); [|done|].
    - unfold fuel_for. lia.
    - exists w0'. by split. }
  { done. }
  assert (Hlen : length (sets w2) = length (sets w)).
  { subst w2. cbn [sets]. by rewrite length_alter. }
  exists w'. split; [done |]. split.
  - intros l' Hne Hl'. rewrite Hframe by lia. by apply Hother.
  - rewrite Hframe by lia. done.
Qed.

Lemma runs_resolveTree_eq (d : string) (depth maxDepth : Z) (V : gset string) (node : SpfNode) :
  runs dns d depth maxDepth V node → resolveTree dns d depth maxDepth V = node.
Proof.
  intros H. unfold resolveTree.
  destruct (H (fuel_for depth maxDepth) 0%nat (mkWorld [V] [])) as (w' & -> & _); done.
Qed.

(** Every call returns, and returns the same tree in every store. *)
Lemma runs_resolveTree (d : string) (depth maxDepth : Z) (V : gset string) :
  runs dns d depth maxDepth V (resolveTree dns d depth maxDepth V).
Proof.
  remember (Z.to_nat (maxDepth + 1 - depth)) as k eqn:Hk.
  revert d depth V Hk. induction k as [|k IH]; intros d depth V Hk.
  - rewrite (runs_resolveTree_eq _ _ _ _ (expected dns d depth maxDepth V));
      apply runs_step; intros; lia.
  - rewrite (runs_resolveTree_eq _ _ _ _ (expected dns d depth maxDepth V));
      apply runs_step; intros; apply IH; lia.
Qed.

(** The tree of a call, one level at a time. *)
Lemma resolveTree_unfold (d : string) (depth maxDepth : Z) (V : gset string) :
  resolveTree dns d depth maxDepth V = expected dns d depth maxDepth V.
Proof.
  apply runs_resolveTree_eq, runs_step. intros. apply runs_resolveTree.
Qed.

(** More fuel does not change what a call returns. *)
Lemma forIncludes_mono (rec rec' : Resolve) :
  (∀ d depth maxDepth l w r, rec d depth maxDepth l w = Some r →
                             rec' d depth maxDepth l w = Some r) →
  ∀ incs depth maxDepth l result w r,
    forIncludes rec depth maxDepth l incs result w = Some r →
    forIncludes rec' depth maxDepth l incs result w = Some r.
Proof.
  intros Hrec incs. induction incs as [|inc rest IH]; intros depth maxDepth l result w r.
  - done.
  - cbn [forIncludes Set_copy].
    destruct (rec inc (depth + 1) maxDepth _ _) as [[child w2]|] eqn:E; [|done].
    rewrite (Hrec _ _ _ _ _ _ E). apply IH.
Qed.

Lemma forRecords_mono (rec rec' : Resolve) :
  (∀ d depth maxDepth l w r, rec d depth maxDepth l w = Some r →
                             rec' d depth maxDepth l w = Some r) →
  ∀ records depth maxDepth l result w r,
    forRecords rec depth maxDepth l records result w = Some r →
    forRecords rec' depth maxDepth l records result w = Some r.
Proof.
  intros Hrec records depth maxDepth l result w r.
  rewrite !forRecords_firstSpf.
  destruct (firstSpf records); [|done]. by apply forIncludes_mono.
Qed.

Lemma lookupSpfRecords_S (n : nat) d depth maxDepth (l : Ref) (w : World) :
  lookupSpfRecords dns (S n) d depth maxDepth l w =
  if (maxDepth <? depth) || Set_has l d w then
    Some (mkSpfNode d [] []
            (Some (if maxDepth <? depth then "Max depth reached"
                   else "Circular reference detected")) None, w)
  else
    match dns d with
    | TxtError message =>
        Some (mkSpfNode d [] [] (Some message) None,
              mkWorld (sets (Set_add l d w)) (queries w ++ [d]))
    | TxtRecords records =>
        forRecords (lookupSpfRecords dns n) depth maxDepth l records
          (mkSpfNode d [] [] None None)
          (mkWorld (sets (Set_add l d w)) (queries w ++ [d]))
    end.
Proof. reflexivity. Qed.

Lemma lookupSpfRecords_mono (n n' : nat) d depth maxDepth (l : Ref) (w : World) r :
  lookupSpfRecords dns n d depth maxDepth l w = Some r → (n ≤ n')%nat →
  lookupSpfRecords dns n' d depth maxDepth l w = Some r.
Proof.
  revert n' d depth maxDepth l w r.
  induction n as [|n IH]; intros n' d depth maxDepth l w r H Hle; [done |].
  destruct n' as [|n']; [lia |].
  rewrite lookupSpfRecords_S in *.
  destruct ((maxDepth <? depth) || Set_has l d w); [done |].
  destruct (dns d) as [message|records]; [done |].
  revert H. apply forRecords_mono.
  intros d' depth' maxDepth' l' w' r' H'. apply (IH n'); [done | lia].
Qed.

End ResolverFacts.

(** ** The shape of a resolved tree *)

Section TreeFacts.

Variable dns : string → TxtAnswer.
Variable maxDepth : Z.

Lemma domain_resolveTree d depth V : domain (resolveTree dns d depth maxDepth V) = d.
Proof.
  rewrite resolveTree_unfold. unfold expected.
  destruct (maxDepth <? depth); [done |].
  destruct (bool_decide (d ∈ V)); [done |].
  destruct (dns d) as [?|records]; [done |].
  by destruct (firstSpf records).
Qed.

(** A child is the tree of an include target, resolved one level down
    against the elements of [visited] and the parent's domain. *)
Lemma children_resolveTree d depth V c :
  c ∈ children (resolveTree dns d depth maxDepth V) →
  depth ≤ maxDepth ∧ (d ∉ V)
  ∧ c = resolveTree dns (domain c) (depth + 1) maxDepth (V ∪ {[d]}).
Proof.
  rewrite resolveTree_unfold. unfold expected.
  destruct (maxDepth <? depth) eqn:Hd; [by intros ?%elem_of_nil |].
  destruct (bool_decide (d ∈ V)) eqn:Hv; [by intros ?%elem_of_nil |].
  apply Z.ltb_ge in Hd. apply bool_decide_eq_false in Hv.
  destruct (dns d) as [?|records]; [by intros ?%elem_of_nil |].
  destruct (firstSpf records) as [recordStr|]; [|by intros ?%elem_of_nil].
  cbn [children]. intros (inc & -> & _)%list_elem_of_fmap.
  by rewrite domain_resolveTree.
Qed.

(** Every node of a resolved tree is the tree of its own domain, resolved
    at its own depth against [V] and the domains of its ancestors; the
    ancestors have pairwise different domains, none of them in [V], and
    they are at most [maxDepth + 1 - depth] many. *)
Lemma subtree_resolveTree d depth V anc x :
  PathTo (resolveTree dns d depth maxDepth V) anc x →
  x = resolveTree dns (domain x) (depth + Z.of_nat (length anc)) maxDepth
        (V ∪ list_to_set (domain <$> anc))
  ∧ NoDup (domain <$> anc)
  ∧ (∀ a, a ∈ anc → domain a ∉ V)
  ∧ (length anc ≤ Z.to_nat (maxDepth + 1 - depth))%nat.
Proof.
  remember (resolveTree dns d depth maxDepth V) as root eqn:Hroot.
  intros Hpath. revert d depth V Hroot.
  induction Hpath as [n|n c anc m Hc Hpath IH]; intros d depth V ->.
  - cbn [length fmap list_fmap list_to_set foldr].
    rewrite domain_resolveTree, Z.add_0_r, (right_id_L ∅ (∪)).
    split; [done |]. split; [constructor |]. split; [by intros a ?%elem_of_nil | lia].
  - apply children_resolveTree in Hc as (Hd & Hv & Hc).
    destruct (IH _ _ _ Hc) as (Hx & Hnd & Hanc & Hlen).
    rewrite fmap_cons, domain_resolveTree.
    split; [|split; [|split]].
    + rewrite Hx at 1. f_equal.
      * cbn [length]. lia.
      * cbn [list_to_set foldr]. set_solver.
    + constructor; [|done].
      intros (a & Ha & Hin)%list_elem_of_fmap.
      apply (Hanc a Hin). rewrite <- Ha. set_solver.
    + intros a [->|Hin]%elem_of_cons.
      * by rewrite domain_resolveTree.
      * intros Ha. apply (Hanc a Hin). set_solver.
    + cbn [length]. lia.
Qed.

(** What a call returns when it is cut off. *)
Lemma resolveTree_cutOff d depth V :
  cutOff d depth maxDepth V = true →
  resolveTree dns d depth maxDepth V =
  terminalNode d (if maxDepth <? depth then "Max depth reached"
                  else "Circular reference detected").
Proof.
  rewrite resolveTree_unfold. unfold expected, cutOff.
  destruct (maxDepth <? depth); [done |]. cbn [orb]. by intros ->.
Qed.

(** A node with an error carries nothing else. *)
Lemma resolveTree_error_exclusive d depth V :
  error (resolveTree dns d depth maxDepth V) ≠ None →
  ipRanges (resolveTree dns d depth maxDepth V) = []
  ∧ children (resolveTree dns d depth maxDepth V) = []
  ∧ spfRecord (resolveTree dns d depth maxDepth V) = None.
Proof.
  rewrite resolveTree_unfold. unfold expected.
  destruct (maxDepth <? depth); [done |].
  destruct (bool_decide (d ∈ V)); [done |].
  destruct (dns d) as [?|records]; [done |].
  by destruct (firstSpf records).
Qed.

(** The call returns the tree [resolveTree], whatever the store. *)
Lemma lookup_resolveTree d depth V (n : nat) (l : Ref) (w : World) :
  sets w !! l = Some V → (fuel_for depth maxDepth ≤ n)%nat →
  ∃ w', lookupSpfRecords dns n d depth maxDepth l w
        = Some (resolveTree dns d depth maxDepth V, w')
      ∧ (∀ l' : Ref, l' ≠ l → (l' < length (sets w))%nat → sets w' !! l' = sets w !! l')
      ∧ sets w' !! l = Some (if cutOff d depth maxDepth V then V else V ∪ {[d]}).
Proof. intros Hl Hn. by apply runs_resolveTree. Qed.

(** Whenever a call returns, with whatever fuel, its tree is
    [resolveTree]. *)
Lemma lookup_returns_resolveTree d depth V (n : nat) (l : Ref) (w : World) node w' :
  sets w !! l = Some V →
  lookupSpfRecords dns n d depth maxDepth l w = Some (node, w') →
  node = resolveTree dns d depth maxDepth V.
Proof.
  intros Hl H.
  apply lookupSpfRecords_mono with (n' := (n `max` fuel_for depth maxDepth)%nat) in H; [|lia].
  destruct (lookup_resolveTree d depth V (n `max` fuel_for depth maxDepth)%nat l w Hl)
    as (w'' & E & _); [lia |].
  congruence.
Qed.

End TreeFacts.

(** ** Integers and doubles *)

Section DoubleFacts.

Variable dns : string → TxtAnswer.

Lemma forIncludes_agree (rec1 : Double.Resolve) (rec2 : Resolve)
    (fd fm : float) (zd zm : Z) :
  (∀ d l w, rec1 d (PrimFloat.add fd 1) fm l w = rec2 d (zd + 1) zm l w) →
  ∀ incs result l w,
    Double.forIncludes rec1 fd fm l incs result w = forIncludes rec2 zd zm l incs result w.
Proof.
  intros Hrec incs. induction incs as [|inc rest IH]; intros result l w; [done |].
  cbn [Double.forIncludes forIncludes Set_copy]. rewrite Hrec.
  destruct (rec2 inc (zd + 1) zm _ _) as [[child w2]|]; [apply IH | done].
Qed.

Lemma forRecords_agree (rec1 : Double.Resolve) (rec2 : Resolve)
    (fd fm : float) (zd zm : Z) :
  (∀ d l w, rec1 d (PrimFloat.add fd 1) fm l w = rec2 d (zd + 1) zm l w) →
  ∀ records result l w,
    Double.forRecords rec1 fd fm l records result w = forRecords rec2 zd zm l records result w.
Proof.
  intros Hrec records. induction records as [|record rest IH]; intros result l w; [done |].
  cbn [Double.forRecords forRecords].
  destruct (Str.includes "v=spf1" (toString record)); [|apply IH].
  by apply forIncludes_agree.
Qed.

Lemma ltb_ofNat (k : nat) :
  (k ≤ 11)%nat → PrimFloat.ltb 10 (Double.ofNat k) = (10 <? Z.of_nat k).
Proof.
  intros Hk. do 12 (destruct k as [|k]; [reflexivity |]). lia.
Qed.

(** From the depths 0 to 11 and with the bound 10, the code on doubles
    and the definition on integers are the same function. *)
Lemma lookup_agree (n k : nat) d (l : Ref) (w : World) :
  (k ≤ 11)%nat →
  Double.lookupSpfRecords dns n d (Double.ofNat k) 10 l w
  = lookupSpfRecords dns n d (Z.of_nat k) 10 l w.
Proof.
  revert k d l w. induction n as [|n IH]; intros k d l w Hk; [done |].
  cbn [Double.lookupSpfRecords lookupSpfRecords]. rewrite (ltb_ofNat k Hk).
  destruct (10 <? Z.of_nat k) eqn:Hcut; [done |]. cbn [orb].
  destruct (Set_has l d w); [done |]. cbn [resolveTxt].
  destruct (dns d) as [message|records]; [done |].
  apply forRecords_agree. intros d' l' w'.
  change (PrimFloat.add (Double.ofNat k) 1) with (Double.ofNat (S k)).
  replace (Z.of_nat k + 1) with (Z.of_nat (S k)) by lia.
  apply IH. apply Z.ltb_ge in Hcut. lia.
Qed.

End DoubleFacts.

(** ** Termination and bounds *)

(** C1, amended.  For every oracle, domain and [visited], and for all
    integers [depth] and [maxDepth] of magnitude up to 2^53, [maxDepth]
    below 2^53 (the range in which every [depth + 1] is exact; the handlers
    call with 0 and 10, where the code on doubles and the definition on
    integers are the same function), the call returns a tree (with the
    fuel [fuel_for depth maxDepth], and with any larger one; what a call
    returns does not change with more fuel).  In that tree a node has at
    most [maxDepth + 1 - depth] ancestors, and a node that lies deeper than
    [maxDepth] is the node of "Max depth reached", so that only calls with
    [depth <= maxDepth] look up and recurse; the ancestors of a node have
    pairwise different domains; and a node whose domain is that of one of
    its ancestors was not entered: it has no ranges, no children and no
    record, and its error is "Circular reference detected" (or
    "Max depth reached" when it lies deeper than [maxDepth]).  In the cycle
    test, with the default bounds, the second visit of [a.com] is such a
    node. *)
Theorem C1_resolve_terminates :
  (∀ (dns : string → TxtAnswer) (d : string) (depth maxDepth : Z)
     (l : Ref) (w : World) (V : gset string) (n : nat),
     -9007199254740992 ≤ depth ≤ 9007199254740992 →
     -9007199254740992 ≤ maxDepth < 9007199254740992 →
     sets w !! l = Some V → (fuel_for depth maxDepth ≤ n)%nat →
     ∃ node w',
       lookupSpfRecords dns n d depth maxDepth l w = Some (node, w')
       ∧ ∀ anc x, PathTo node anc x →
           (length anc ≤ Z.to_nat (maxDepth + 1 - depth))%nat
           ∧ (maxDepth < depth + Z.of_nat (length anc) →
              x = terminalNode (domain x) "Max depth reached")
           ∧ NoDup (domain <$> anc)
           ∧ (domain x ∈ (domain <$> anc) →
              x = terminalNode (domain x)
                    (if maxDepth <? depth + Z.of_nat (length anc)
                     then "Max depth reached" else "Circular reference detected")))
  ∧ (∀ (dns : string → TxtAnswer) (n n' : nat) (d : string) (depth maxDepth : Z)
       (l : Ref) (w : World) r,
       lookupSpfRecords dns n d depth maxDepth l w = Some r → (n ≤ n')%nat →
       lookupSpfRecords dns n' d depth maxDepth l w = Some r)
  ∧ (∀ (dns : string → TxtAnswer) (n : nat) (d : string) (l : Ref) (w : World),
       Double.lookupSpfRecords dns n d 0 10 l w = lookupSpfRecords dns n d 0 10 l w)
  ∧ fst <$> lookupSpfRecords_default dnsAB 12 "a.com" emptyWorld = Some treeAB.
Proof.
  split; [|split; [|split; [|by vm_compute]]].
  2:{ intros dns n n' d depth maxDepth l w r. apply lookupSpfRecords_mono. }
  2:{ intros dns n d l w. apply (lookup_agree dns n 0 d l w). lia. }
  intros dns d depth maxDepth l w V n _ _ Hl Hn.
  destruct (lookup_resolveTree dns maxDepth d depth V n l w Hl Hn) as (w' & E & _).
  exists (resolveTree dns d depth maxDepth V), w'. split; [done |].
  intros anc x Hpath.
  destruct (subtree_resolveTree _ _ _ _ _ _ _ Hpath) as (Hx & Hnd & _ & Hlen).
  split; [done |]. split.
  { intros Hdeep. rewrite Hx at 1.
    rewrite resolveTree_cutOff; unfold cutOff; apply Z.ltb_lt in Hdeep; by rewrite Hdeep. }
  split; [done |].
  intros Hin. rewrite Hx at 1. apply resolveTree_cutOff.
  unfold cutOff. apply orb_true_iff. right. apply bool_decide_eq_true.
  apply elem_of_union_r, elem_of_list_to_set, Hin.
Qed.

Lemma C1_resolve_terminates_witness :
  ∃ node w',
    lookupSpfRecords dnsAB 12 "a.com" 0 10 0%nat (mkWorld [∅] []) = Some (node, w')
    ∧ ∀ anc x, PathTo node anc x →
        (length anc ≤ Z.to_nat (10 + 1 - 0))%nat
        ∧ (10 < 0 + Z.of_nat (length anc) →
           x = terminalNode (domain x) "Max depth reached")
        ∧ NoDup (domain <$> anc)
        ∧ (domain x ∈ (domain <$> anc) →
           x = terminalNode (domain x)
                 (if 10 <? 0 + Z.of_nat (length anc)
                  then "Max depth reached" else "Circular reference detected")).
Proof.
  apply (proj1 C1_resolve_terminates dnsAB "a.com" 0 10 0%nat (mkWorld [∅] []) ∅ 12%nat).
  - lia.
  - lia.
  - reflexivity.
  - vm_compute. lia.
Defined.

(** C3.  A call with [depth > maxDepth] returns the node with the error
    "Max depth reached", without ranges, children or record; the store and
    the log of lookups are as before.  This holds whether or not the domain
    is in [visited]: the depth test comes first.  With [maxDepth = 1] the
    chain [a.com], [b.com], [a.com] ends in such a node at depth 2, although
    [a.com] is in [visited] there. *)
Theorem C3_max_depth_reached :
  (∀ (dns : string → TxtAnswer) (n : nat) (d : string) (depth maxDepth : Z)
     (l : Ref) (w : World),
     maxDepth < depth →
     lookupSpfRecords dns (S n) d depth maxDepth l w
     = Some (mkSpfNode d [] [] (Some "Max depth reached") None, w))
  ∧ fst <$> lookupSpfRecords dnsAB 12 "a.com" 0 1 0%nat (mkWorld [∅] [])
    = Some treeABshallow.
Proof.
  split; [|by vm_compute].
  intros dns n d depth maxDepth l w Hd. cbn [lookupSpfRecords].
  apply Z.ltb_lt in Hd. by rewrite Hd.
Qed.

Lemma C3_max_depth_reached_witness :
  Set_has 0%nat "a.com" (mkWorld [{["a.com"]}] []) = true
  ∧ lookupSpfRecords dnsAB 1 "a.com" 11 10 0%nat (mkWorld [{["a.com"]}] [])
    = Some (mkSpfNode "a.com" [] [] (Some "Max depth reached") None,
            mkWorld [{["a.com"]}] []).
Proof.
  split; [reflexivity |].
  apply (proj1 C3_max_depth_reached dnsAB 0%nat "a.com" 11 10 0%nat (mkWorld [{["a.com"]}] [])).
  lia.
Defined.

(** The claim that no root-to-node path has a duplicate fails as worded:
    in the cycle test the path to the second [a.com] reads
    [a.com, b.com, a.com]. *)
Lemma C2_path_has_duplicate :
  ∃ node w' anc x,
    lookupSpfRecords_default dnsAB 12 "a.com" emptyWorld = Some (node, w')
    ∧ PathTo node anc x
    ∧ ¬ NoDup (domain <$> (anc ++ [x])).
Proof.
  destruct (lookupSpfRecords_default dnsAB 12 "a.com" emptyWorld) as [[node w']|] eqn:E;
    [|by vm_compute in E].
  assert (Hnode : node = treeAB).
  { apply (f_equal (fmap fst)) in E. vm_compute in E. by inversion E. }
  subst node.
  exists treeAB, w'.
  eexists [treeAB; _], (terminalNode "a.com" "Circular reference detected").
  split; [done |]. split.
  - apply path_step with (c := mkSpfNode "b.com" []
       [terminalNode "a.com" "Circular reference detected";
        mkSpfNode "c.com" [] [] (Some "queryTxt ENOTFOUND c.com") None]
       None (Some "v=spf1 include:a.com include:c.com")).
    + apply list_elem_of_here.
    + eapply path_step; [apply list_elem_of_here | apply path_here].
  - intros H. cbn in H. apply NoDup_cons in H as [H _]. apply H.
    apply elem_of_cons. right. apply list_elem_of_here.
Qed.

(** C2, amended.  A call with [depth <= maxDepth] and the domain in
    [visited] returns the node with the error
    "Circular reference detected", without ranges, children or record, and
    leaves the store and the log of lookups as they were.  Consequently, in
    every tree returned by a call, the nodes above any node have pairwise
    different domains, none of them in [visited]; a domain can come a
    second time only at the last node of a path, and that node was cut off
    (it is the node just described, or the "Max depth reached" node). *)
Theorem C2_circular_reference :
  ∀ (dns : string → TxtAnswer) (d : string) (depth maxDepth : Z)
    (l : Ref) (w : World) (V : gset string) (n : nat),
    sets w !! l = Some V → (fuel_for depth maxDepth ≤ n)%nat →
    (depth ≤ maxDepth → d ∈ V →
       lookupSpfRecords dns n d depth maxDepth l w
       = Some (mkSpfNode d [] [] (Some "Circular reference detected") None, w))
    ∧ ∃ node w',
        lookupSpfRecords dns n d depth maxDepth l w = Some (node, w')
        ∧ ∀ anc x, PathTo node anc x →
            NoDup (domain <$> anc)
            ∧ (∀ a, a ∈ anc → domain a ∉ V)
            ∧ (domain x ∈ (domain <$> anc) →
               x = terminalNode (domain x) "Circular reference detected"
               ∨ x = terminalNode (domain x) "Max depth reached").
Proof.
  intros dns d depth maxDepth l w V n Hl Hn. split.
  - intros Hd Hv. unfold fuel_for in Hn. destruct n as [|n]; [lia |].
    cbn [lookupSpfRecords]. rewrite (Set_has_contents _ _ _ _ Hl).
    apply Z.ltb_ge in Hd. rewrite Hd. cbn [orb].
    by rewrite bool_decide_eq_true_2.
  - destruct (lookup_resolveTree dns maxDepth d depth V n l w Hl Hn) as (w' & E & _).
    exists (resolveTree dns d depth maxDepth V), w'. split; [done |].
    intros anc x Hpath.
    destruct (subtree_resolveTree _ _ _ _ _ _ _ Hpath) as (Hx & Hnd & Hanc & _).
    split; [done |]. split; [done |].
    intros Hin.
    assert (Hcut : cutOff (domain x) (depth + Z.of_nat (length anc)) maxDepth
                     (V ∪ list_to_set (domain <$> anc)) = true).
    { unfold cutOff. apply orb_true_iff. right. apply bool_decide_eq_true.
      apply elem_of_union_r, elem_of_list_to_set, Hin. }
    rewrite (resolveTree_cutOff _ _ _ _ _ Hcut) in Hx.
    destruct (maxDepth <? depth + Z.of_nat (length anc)); [by right | by left].
Qed.

Lemma C2_circular_reference_witness :
  lookupSpfRecords dnsAB 12 "a.com" 1 10 0%nat (mkWorld [{["a.com"]}] ["a.com"])
  = Some (mkSpfNode "a.com" [] [] (Some "Circular reference detected") None,
          mkWorld [{["a.com"]}] ["a.com"]).
Proof.
  apply (C2_circular_reference dnsAB "a.com" 1 10 0%nat
           (mkWorld [{["a.com"]}] ["a.com"]) {["a.com"]} 12%nat).
  - reflexivity.
  - vm_compute. lia.
  - lia.
  - by apply elem_of_singleton.
Defined.

(** C10.  In every node of every tree returned by a call, an error
    excludes ranges, children and a record. *)
Theorem C10_error_excludes_record :
  ∀ (dns : string → TxtAnswer) (d : string) (depth maxDepth : Z)
    (l : Ref) (w : World) (V : gset string) (n : nat),
    sets w !! l = Some V → (fuel_for depth maxDepth ≤ n)%nat →
    ∃ node w',
      lookupSpfRecords dns n d depth maxDepth l w = Some (node, w')
      ∧ ∀ anc x, PathTo node anc x → error x ≠ None →
          ipRanges x = [] ∧ children x = [] ∧ spfRecord x = None.
Proof.
  intros dns d depth maxDepth l w V n Hl Hn.
  destruct (lookup_resolveTree dns maxDepth d depth V n l w Hl Hn) as (w' & E & _).
  exists (resolveTree dns d depth maxDepth V), w'. split; [done |].
  intros anc x Hpath.
  destruct (subtree_resolveTree _ _ _ _ _ _ _ Hpath) as (Hx & _).
  rewrite Hx. apply resolveTree_error_exclusive.
Qed.

Lemma C10_error_excludes_record_witness :
  ∃ node w',
    lookupSpfRecords dnsAB 12 "a.com" 0 10 0%nat (mkWorld [∅] []) = Some (node, w')
    ∧ ∀ anc x, PathTo node anc x → error x ≠ None →
        ipRanges x = [] ∧ children x = [] ∧ spfRecord x = None.
Proof.
  apply (C10_error_excludes_record dnsAB "a.com" 0 10 0%nat (mkWorld [∅] []) ∅ 12%nat).
  - reflexivity.
  - vm_compute. lia.
Defined.

(** ** Records, failures and the [visited] set *)



(** The node of a call that is not cut off. *)
Lemma resolveTree_lookup (dns : string → TxtAnswer) d depth maxDepth V :
  depth ≤ maxDepth → d ∉ V →
  resolveTree dns d depth maxDepth V =
  match dns d with
  | TxtError message => mkSpfNode d [] [] (Some message) None
  | TxtRecords records =>
      match firstSpf records with
      | None => mkSpfNode d [] [] None None
      | Some recordStr =>
          mkSpfNode d (ipv4 (parseSpfRecord recordStr))
            (map (λ inc, resolveTree dns inc (depth + 1) maxDepth (V ∪ {[d]}))
                 (includes (parseSpfRecord recordStr)))
            None (Some recordStr)
      end
  end.
Proof.
  intros Hd Hv. rewrite resolveTree_unfold. unfold expected.
  apply Z.ltb_ge in Hd. rewrite Hd. by rewrite bool_decide_eq_false_2.
Qed.





(** C9.  A call whose lookup fails returns the node with the failure
    message as error and without ranges, children or record.  A failure
    below never reaches the parent or the siblings: a parent with an SPF
    record has no error and one child per include target, in order, each
    child being the tree of its own target alone; where the lookup of a
    target fails, that child is the failure node. *)
Theorem C9_lookup_failure :
  ∀ (dns : string → TxtAnswer) (d : string) (depth maxDepth : Z)
    (l : Ref) (w : World) (V : gset string) (n : nat),
    sets w !! l = Some V → (fuel_for depth maxDepth ≤ n)%nat →
    depth ≤ maxDepth → d ∉ V →
    (∀ message, dns d = TxtError message →
       ∃ w', lookupSpfRecords dns n d depth maxDepth l w
             = Some (mkSpfNode d [] [] (Some message) None, w'))
    ∧ (∀ records recordStr,
         dns d = TxtRecords records → firstSpf records = Some recordStr →
         ∃ node w',
           lookupSpfRecords dns n d depth maxDepth l w = Some (node, w')
           ∧ error node = None ∧ spfRecord node = Some recordStr
           ∧ length (children node) = length (includes (parseSpfRecord recordStr))
           ∧ ∀ (i : nat) inc, includes (parseSpfRecord recordStr) !! i = Some inc →
               ∃ kid, children node !! i = Some kid
                 ∧ domain kid = inc
                 ∧ kid = resolveTree dns inc (depth + 1) maxDepth (V ∪ {[d]})
                 ∧ ∀ message, depth + 1 ≤ maxDepth → inc ∉ V ∪ {[d]} →
                     dns inc = TxtError message →
                     kid = mkSpfNode inc [] [] (Some message) None).
Proof.
  intros dns d depth maxDepth l w V n Hl Hn Hd Hv.
  destruct (lookup_resolveTree dns maxDepth d depth V n l w Hl Hn) as (w' & E & _).
  rewrite (resolveTree_lookup _ _ _ _ _ Hd Hv) in E. split.
  - intros message Hdns. rewrite Hdns in E. by exists w'.
  - intros records recordStr Hdns Hfirst. rewrite Hdns, Hfirst in E.
    eexists _, w'. split; [exact E |]. cbn [error spfRecord children].
    split; [done |]. split; [done |]. split; [by rewrite length_map |].
    intros i inc Hi. eexists. split.
    + rewrite list_lookup_fmap, Hi. reflexivity.
    + split; [apply domain_resolveTree |]. split; [done |].
      intros message Hd' Hv' Hdns'.
      by rewrite (resolveTree_lookup _ _ _ _ _ Hd' Hv'), Hdns'.
Qed.

Lemma C9_lookup_failure_witness :
  (∃ w', lookupSpfRecords dnsDiamond 12 "w.com" 1 10 0%nat (mkWorld [{["root.com"]}] [])
         = Some (mkSpfNode "w.com" [] [] (Some "queryTxt ENOTFOUND") None, w'))
  ∧ ∃ node w',
      lookupSpfRecords dnsDiamond 12 "root.com" 0 10 0%nat (mkWorld [∅] []) = Some (node, w')
      ∧ error node = None
      ∧ length (children node) = 3%nat
      ∧ children node !! 0%nat = Some (mkSpfNode "w.com" [] [] (Some "queryTxt ENOTFOUND") None).
Proof.
  split.
  - apply (C9_lookup_failure dnsDiamond "w.com" 1 10 0%nat
             (mkWorld [{["root.com"]}] []) {["root.com"]} 12%nat).
    + reflexivity.
    + vm_compute. lia.
    + lia.
    + by vm_compute.
    + reflexivity.
  - destruct (C9_lookup_failure dnsDiamond "root.com" 0 10 0%nat
                (mkWorld [∅] []) ∅ 12%nat) as [_ H].
    + reflexivity.
    + vm_compute. lia.
    + lia.
    + apply not_elem_of_empty.
    + destruct (H [["v=spf1 include:w.com include:x.com include:y.com"]]
                  "v=spf1 include:w.com include:x.com include:y.com")
        as (node & w' & E & Herr & _ & Hlen & Hkids); [reflexivity | reflexivity |].
      exists node, w'. split; [exact E |]. split; [exact Herr |]. split; [exact Hlen |].
      destruct (Hkids 0%nat "w.com") as (kid & Hkid & _ & _ & Hfail); [reflexivity |].
      rewrite Hkid. f_equal. apply Hfail; [lia | by vm_compute | reflexivity].
Defined.

(** The set handed to a call is changed by the call: [visited.add(domain)]
    works on the argument, not on a copy of it. *)
Lemma C8_argument_is_mutated :
  ∃ node w',
    lookupSpfRecords dnsAB 12 "c.com" 0 10 0%nat (mkWorld [∅] []) = Some (node, w')
    ∧ sets (mkWorld [∅] []) !! 0%nat = Some ∅
    ∧ sets w' !! 0%nat = Some {["c.com"]}
    ∧ sets w' !! 0%nat ≠ sets (mkWorld [∅] []) !! 0%nat.
Proof.
  eexists _, _. split; [by vm_compute |].
  split; [reflexivity |]. split; [by vm_compute |].
  cbn [sets]. intros H. apply (f_equal (fmap (λ s : gset string, bool_decide ("c.com" ∈ s)))) in H.
  by vm_compute in H.
Qed.

(** C8, amended.  A call that is not cut off adds its domain to the very
    set it was given, so that set, held by the caller, does change; no
    other set of the store is touched, and in particular no recursive call
    changes the set of the call that made it, because each recursive call
    is given a new copy.  Every child is the tree of its include target
    resolved against exactly the elements of [visited] and the current
    domain, whatever its siblings added to their copies; so a domain can be
    resolved in full in two sibling branches, as [z.com] is below [x.com]
    and [y.com]. *)
Theorem C8_visited_is_copied :
  (∀ (dns : string → TxtAnswer) (d : string) (depth maxDepth : Z)
     (l : Ref) (w : World) (V : gset string) (n : nat),
     sets w !! l = Some V → (fuel_for depth maxDepth ≤ n)%nat →
     ∃ node w',
       lookupSpfRecords dns n d depth maxDepth l w = Some (node, w')
       ∧ sets w' !! l = Some (if (maxDepth <? depth) || bool_decide (d ∈ V)
                              then V else V ∪ {[d]})
       ∧ (∀ l' : Ref, l' ≠ l → (l' < length (sets w))%nat → sets w' !! l' = sets w !! l')
       ∧ (∀ (i : nat) kid, children node !! i = Some kid →
            kid = resolveTree dns (domain kid) (depth + 1) maxDepth (V ∪ {[d]})))
  ∧ fst <$> lookupSpfRecords_default dnsDiamond 12 "root.com" emptyWorld = Some treeDiamond.
Proof.
  split; [|by vm_compute].
  intros dns d depth maxDepth l w V n Hl Hn.
  destruct (lookup_resolveTree dns maxDepth d depth V n l w Hl Hn) as (w' & E & Hframe & Hset).
  exists (resolveTree dns d depth maxDepth V), w'.
  split; [done |]. split; [done |]. split; [done |].
  intros i kid Hkid. apply list_elem_of_lookup_2 in Hkid.
  by apply children_resolveTree in Hkid as (_ & _ & Hkid).
Qed.

Lemma C8_visited_is_copied_witness :
  ∃ node w',
    lookupSpfRecords dnsDiamond 12 "root.com" 0 10 1%nat (mkWorld [{["x.com"]}; ∅] [])
    = Some (node, w')
    ∧ sets w' !! 1%nat = Some {["root.com"]}
    ∧ sets w' !! 0%nat = Some {["x.com"]}
    ∧ node = treeDiamond.
Proof.
  destruct (proj1 C8_visited_is_copied dnsDiamond "root.com" 0 10 1%nat
              (mkWorld [{["x.com"]}; ∅] []) ∅ 12%nat)
    as (node & w' & E & Hset & Hframe & _).
  - reflexivity.
  - vm_compute. lia.
  - exists node, w'. split; [exact E |]. split.
    + rewrite Hset. by vm_compute.
    + split.
      * rewrite (Hframe 0%nat); [reflexivity | lia | simpl; lia].
      * apply (f_equal (fmap fst)) in E. vm_compute in E. by inversion E.
Defined.

(** ** Record parser *)

(** The parser, token by token. *)
Lemma parseSpfRecord_tokens (s : string) :
  parseSpfRecord s =
  {| ipv4 := flat_map (valueAfter "ip4:") (tokens s);
     includes := flat_map (valueAfter "include:") (tokens s) |}.
Proof.
  unfold parseSpfRecord.
  rewrite (StrFacts.matchAll_tokens "ip4:" s) by reflexivity.
  rewrite (StrFacts.matchAll_tokens "include:" s) by reflexivity.
  by rewrite !StrFacts.map_removeFirst_append.
Qed.

Lemma valueAfter_form (lit : string) (c : ascii) (v : string) :
  valueAfter lit (lit +:+ String c v) = [String c v].
Proof.
  assert (H : ∀ tok, valueAfter lit tok =
    match Str.stripPrefix lit tok with
    | Some (String c v) => [String c v]
    | _ => match tok with
           | EmptyString => []
           | String _ tok' => valueAfter lit tok'
           end
    end) by (by intros []).
  by rewrite H, StrFacts.stripPrefix_append.
Qed.

Lemma flat_map_ext_elem {A B : Type} (f g : A → list B) (l : list A) :
  (∀ x, x ∈ l → f x = g x) → flat_map f l = flat_map g l.
Proof.
  induction l as [|x l IH]; intros H; simpl; [done |].
  rewrite (H x) by apply list_elem_of_here.
  rewrite IH; [done |]. intros y Hy. apply H. by apply list_elem_of_further.
Qed.

(** The parser is not the token reading of the specification: a prefix
    that occurs inside a token is matched as well, as after a qualifier. *)
Lemma C5_prefix_inside_token :
  parseSpfRecord "v=spf1 -ip4:192.0.2.1 ~include:foo.com"
  = {| ipv4 := ["192.0.2.1"]; includes := ["foo.com"] |}
  ∧ parseTokens "v=spf1 -ip4:192.0.2.1 ~include:foo.com"
  = {| ipv4 := []; includes := [] |}
  ∧ parseSpfRecord "v=spf1 -ip4:192.0.2.1 ~include:foo.com"
  ≠ parseTokens "v=spf1 -ip4:192.0.2.1 ~include:foo.com".
Proof. split; [reflexivity |]. split; [reflexivity |]. by vm_compute. Qed.

(** C5, amended.  The parser is total and validates nothing.  For every
    string it returns, in order of appearance, one value per
    whitespace-delimited token in which "ip4:" (or "include:") occurs with
    at least one character after it: the rest of the token after the
    leftmost such occurrence.  The occurrence need not begin the token; a
    token of the form [ip4:<value>] gives [<value>], and where every token
    that gives a value has this form the result is the token reading of
    the specification.  Without a match the sequences are empty, and the
    example string parses as stated. *)
Theorem C5_parser :
  (∀ s, parseSpfRecord s =
        {| ipv4 := flat_map (valueAfter "ip4:") (tokens s);
           includes := flat_map (valueAfter "include:") (tokens s) |})
  ∧ (∀ c v, valueAfter "ip4:" ("ip4:" +:+ String c v) = [String c v]
          ∧ valueAfter "include:" ("include:" +:+ String c v) = [String c v])
  ∧ (∀ s, (∀ tok, tok ∈ tokens s →
             valueAfter "ip4:" tok = tokenValue "ip4:" tok
             ∧ valueAfter "include:" tok = tokenValue "include:" tok) →
          parseSpfRecord s = parseTokens s)
  ∧ parseSpfRecord "v=spf1 -all" = {| ipv4 := []; includes := [] |}
  ∧ parseSpfRecord "v=spf1 ip4:10.0.0.0/8 include:foo.com include:bar.com -all"
    = {| ipv4 := ["10.0.0.0/8"]; includes := ["foo.com"; "bar.com"] |}.
Proof.
  split; [exact parseSpfRecord_tokens |].
  split; [intros c v; split; apply valueAfter_form |].
  split; [|split; reflexivity].
  intros s H. rewrite parseSpfRecord_tokens. unfold parseTokens. f_equal.
  - apply flat_map_ext_elem. intros tok Ht. by apply H.
  - apply flat_map_ext_elem. intros tok Ht. by apply H.
Qed.

Lemma C5_parser_witness :
  parseSpfRecord "v=spf1 ip4:10.0.0.0/8 include:foo.com -all"
  = parseTokens "v=spf1 ip4:10.0.0.0/8 include:foo.com -all".
Proof.
  apply (proj1 (proj2 (proj2 C5_parser))).
  intros tok Ht. vm_compute in Ht.
  repeat (apply elem_of_cons in Ht as [->|Ht]; [by split |]).
  by apply elem_of_nil in Ht.
Defined.

(** ** Range collector *)

Lemma SpfNode_forall_ind (P : SpfNode → Prop) :
  (∀ d rs cs e s, Forall P cs → P (mkSpfNode d rs cs e s)) → ∀ t, P t.
Proof.
  intros H. fix IH 1. intros [d rs cs e s]. apply H.
  induction cs as [|c cs IHcs]; constructor; [apply IH | apply IHcs].
Qed.

Lemma collectAllIpRanges_unfold (tree : SpfNode) (ranges : list RangeEntry) :
  collectAllIpRanges tree ranges =
  fold_left (λ ranges child, collectAllIpRanges child ranges) (children tree)
    (if (0 <? length (ipRanges tree))%nat
     then ranges ++ map (λ range, Entry.mk range (domain tree)) (ipRanges tree)
     else ranges).
Proof. by destruct tree. Qed.

(** The accumulator is only extended, by the flattening of the tree. *)
Lemma collectAllIpRanges_preorder (tree : SpfNode) :
  ∀ ranges, collectAllIpRanges tree ranges = ranges ++ preorder tree.
Proof.
  induction tree as [d rs cs e s IH] using SpfNode_forall_ind. intros ranges.
  rewrite collectAllIpRanges_unfold. cbn [children ipRanges domain preorder].
  assert (Hown : (if (0 <? length rs)%nat
                  then ranges ++ map (λ range, Entry.mk range d) rs else ranges)
                 = ranges ++ map (λ range, Entry.mk range d) rs).
  { destruct rs; simpl; [by rewrite app_nil_r | done]. }
  rewrite Hown, app_assoc.
  generalize (ranges ++ map (λ range, Entry.mk range d) rs). clear Hown ranges.
  induction IH as [|c cs Hc _ IHcs]; intros acc; simpl.
  - by rewrite app_nil_r.
  - by rewrite Hc, IHcs, app_assoc.
Qed.

Lemma preorder_no_ranges (tree : SpfNode) :
  (∀ anc x, PathTo tree anc x → ipRanges x = []) → preorder tree = [].
Proof.
  induction tree as [d rs cs e s IH] using SpfNode_forall_ind. intros H.
  cbn [preorder ipRanges domain children].
  pose proof (H [] _ (path_here _)) as Hrs. cbn [ipRanges] in Hrs.
  rewrite Hrs. simpl.
  assert (Hcs : ∀ c, c ∈ cs → preorder c = []).
  { intros c Hc. apply (proj1 (Forall_forall _ _) IH c Hc).
    intros anc x Hp. apply (H (mkSpfNode d rs cs e s :: anc) x).
    by apply path_step with (c := c). }
  clear IH H. induction cs as [|c cs IHcs]; simpl; [done |].
  rewrite (Hcs c) by apply list_elem_of_here. simpl.
  apply IHcs. intros c' Hc'. apply Hcs. by apply list_elem_of_further.
Qed.

(** C6.  [collectAllIpRanges], called on a tree alone, is the depth-first
    flattening of the tree: one entry per range of a node, attributed to
    the node's domain, the entries of a node before those of its
    children, the children in their stored order.  (Called with an array,
    it appends the flattening to it.)  A tree without ranges gives the
    empty sequence, and the two-level tree of the specification gives the
    root's entry first. *)
Theorem C6_collect_is_preorder :
  (∀ tree, collectAllIpRanges tree [] = preorder tree)
  ∧ (∀ d rs cs e s,
       preorder (mkSpfNode d rs cs e s)
       = map (λ range, Entry.mk range d) rs ++ flat_map preorder cs)
  ∧ (∀ tree ranges, collectAllIpRanges tree ranges = ranges ++ preorder tree)
  ∧ (∀ tree, (∀ anc x, PathTo tree anc x → ipRanges x = []) →
             collectAllIpRanges tree [] = [])
  ∧ collectAllIpRanges
      (mkSpfNode "root" ["10.0.0.0/8"]
         [mkSpfNode "include.com" ["192.168.1.0/24"] [] None (Some "v=spf1 ip4:192.168.1.0/24")]
         None (Some "v=spf1 ip4:10.0.0.0/8 include:include.com")) []
    = [Entry.mk "10.0.0.0/8" "root"; Entry.mk "192.168.1.0/24" "include.com"].
Proof.
  split; [intros tree; by rewrite collectAllIpRanges_preorder |].
  split; [done |].
  split; [intros tree ranges; apply collectAllIpRanges_preorder |].
  split; [|reflexivity].
  intros tree H. by rewrite collectAllIpRanges_preorder, preorder_no_ranges.
Qed.

Lemma C6_collect_is_preorder_witness :
  collectAllIpRanges
    (mkSpfNode "a.com" [] [mkSpfNode "b.com" [] [] (Some "ESERVFAIL") None] None
       (Some "v=spf1 include:b.com")) [] = [].
Proof.
  apply (proj1 (proj2 (proj2 (proj2 C6_collect_is_preorder)))).
  intros anc x Hp.
  inversion Hp as [|? c ? ? Hc Hp']; subst; [done |].
  apply list_elem_of_singleton in Hc as ->.
  inversion Hp' as [|? c ? ? Hc ?]; subst; [done |].
  by apply elem_of_nil in Hc.
Defined.

(** ** IP matcher *)

Section MatcherFacts.

Variable ipRangeCheck : string → string → CheckOutcome.

Lemma forRanges_spec (ip : string) (ranges : list RangeEntry) :
  ∀ matches console,
    forRanges ipRangeCheck ip ranges matches console
    = (matches ++ List.filter (isMatch ipRangeCheck ip) ranges,
       console ++ flat_map (warningFor ipRangeCheck ip) ranges).
Proof.
  induction ranges as [|[range domain] rest IH]; intros matches console.
  - simpl. by rewrite !app_nil_r.
  - cbn [forRanges List.filter flat_map]. unfold isMatch, warningFor. cbn [Entry.range].
    destruct (ipRangeCheck ip range) as [[|]|message]; rewrite IH.
    + by rewrite <- app_assoc.
    + done.
    + by rewrite <- app_assoc.
Qed.

End MatcherFacts.




(** * Further properties of the code *)

(** ** The patterns of the request validation *)

Module RegexFacts.
Import Regex StrFacts.

#[local] Arguments String.append !_ _ / : simpl nomatch.

Lemma inClass_range (lo hi c : ascii) :
  inClass [(lo, hi)] c = true
  ↔ (nat_of_ascii lo ≤ nat_of_ascii c ∧ nat_of_ascii c ≤ nat_of_ascii hi)%nat.
Proof.
  unfold inClass. cbn [existsb fst snd]. rewrite orb_false_r, andb_true_iff.
  by rewrite !Nat.leb_le.
Qed.

Lemma inClass_chr (a c : ascii) : inClass [(a, a)] c = true ↔ c = a.
Proof.
  rewrite inClass_range. split.
  - intros [H1 H2]. rewrite <- (ascii_nat_embedding c), <- (ascii_nat_embedding a).
    f_equal. lia.
  - by intros ->.
Qed.

Lemma plusFrom_spec (cls : CharClass) (s : string) (k : string → bool) :
  plusFrom cls s k = true
  ↔ ∃ x y, s = x +:+ y ∧ (x ≠ EmptyString ∧ allIn cls x = true) ∧ k y = true.
Proof.
  induction s as [|c s IH]; cbn [plusFrom].
  - split; [done |]. intros (x & y & E & [Hx _] & _). by destruct x.
  - rewrite andb_true_iff, orb_true_iff, IH. split.
    + intros [Hc [(x & y & -> & [_ Hx] & Hk)|Hk]].
      * exists (String c x), y. simpl. by rewrite Hc, Hx.
      * exists (String c EmptyString), s. simpl. by rewrite Hc.
    + intros (x & y & E & [Hne Hx] & Hk).
      destruct x as [|c' x]; [done |]. simpl in E, Hx. inversion E; subst c' s.
      apply andb_true_iff in Hx as [Hc Hx]. split; [done |].
      destruct x as [|c'' x].
      * right. done.
      * left. exists (String c'' x), y. done.
Qed.

(** The matcher finds a match exactly when a prefix is in the language
    of the pattern and the continuation accepts the rest. *)
Lemma matchK_lang (r : t) :
  ∀ s k, matchK r s k = true ↔ ∃ x y, s = x +:+ y ∧ lang r x ∧ k y = true.
Proof.
  induction r as [cls|r1 IH1 r2 IH2|r1 IH1 r2 IH2|r1 IH1|n r1 IH1|cls]; intros s k.
  - cbn [matchK lang]. destruct s as [|c s].
    + split; [done |]. by intros (x & y & E & (c & -> & _) & _).
    + rewrite andb_true_iff. split.
      * intros [Hc Hk]. exists (String c EmptyString), s. eauto.
      * intros (x & y & E & (c' & -> & Hc) & Hk). simpl in E. by inversion E; subst.
  - cbn [matchK lang]. rewrite IH1. split.
    + intros (x & y & -> & Hx & (x' & y' & -> & Hx' & Hk)%IH2).
      exists (x +:+ x'), y'. rewrite append_assoc. eauto 10.
    + intros (x & y & -> & (x1 & x2 & -> & H1 & H2) & Hk).
      exists x1, (x2 +:+ y). rewrite append_assoc. split; [done |]. split; [done |].
      apply IH2. eauto.
  - cbn [matchK lang]. rewrite orb_true_iff, IH1, IH2. split.
    + intros [(x & y & ? & ? & ?)|(x & y & ? & ? & ?)]; exists x, y; eauto.
    + intros (x & y & ? & [?|?] & ?); [left | right]; exists x, y; eauto.
  - cbn [matchK lang]. rewrite orb_true_iff, IH1. split.
    + intros [(x & y & ? & ? & ?)|Hk]; [exists x, y; eauto |].
      exists EmptyString, s. eauto.
    + intros (x & y & E & [->|Hx] & Hk); [right; by subst | left; exists x, y; eauto].
  - cbn [matchK lang]. revert s. induction n as [|n IHn]; intros s.
    + cbn [Nat.iter timesLang]. split.
      * intros Hk. exists EmptyString, s. eauto.
      * by intros (x & y & -> & -> & Hk).
    + change (Nat.iter (S n) (λ k' s', matchK r1 s' k') k s)
        with (matchK r1 s (Nat.iter n (λ k' s', matchK r1 s' k') k)).
      cbn [timesLang]. rewrite IH1. split.
      * intros (x & y & -> & Hx & (x' & y' & -> & Hx' & Hk)%IHn).
        exists (x +:+ x'), y'. rewrite append_assoc. eauto 10.
      * intros (x & y & -> & (x1 & x2 & -> & H1 & H2) & Hk).
        exists x1, (x2 +:+ y). rewrite append_assoc. split; [done |]. split; [done |].
        apply IHn. eauto.
  - cbn [matchK lang]. apply plusFrom_spec.
Qed.

Lemma test_lang (r : t) (s : string) : test r s = true ↔ lang r s.
Proof.
  unfold test. rewrite matchK_lang. split.
  - intros (x & y & -> & Hx & Hy). destruct y; [|done]. by rewrite append_nil_r.
  - intros H. exists s, EmptyString. by rewrite append_nil_r.
Qed.

(** The codes of the characters the patterns name. *)
Ltac char_codes :=
  repeat match goal with
         | H : inClass [(_, _)] _ = true |- _ => apply inClass_range in H
         | H : inClass digit _ = true |- _ => apply inClass_range in H
         | |- inClass [(_, _)] _ = true => apply inClass_range
         | |- inClass digit _ = true => apply inClass_range
         end;
  change (nat_of_ascii "0"%char) with 48%nat in *;
  change (nat_of_ascii "1"%char) with 49%nat in *;
  change (nat_of_ascii "2"%char) with 50%nat in *;
  change (nat_of_ascii "4"%char) with 52%nat in *;
  change (nat_of_ascii "5"%char) with 53%nat in *;
  change (nat_of_ascii "9"%char) with 57%nat in *.

(** [isOctet], length by length. *)
Lemma isOctet_cases (o : string) :
  isOctet o = true ↔
    (∃ c1, o = String c1 EmptyString ∧ isDigitCode c1)
  ∨ (∃ c1 c2, o = String c1 (String c2 EmptyString) ∧ isDigitCode c1 ∧ isDigitCode c2)
  ∨ (∃ c1 c2 c3, o = String c1 (String c2 (String c3 EmptyString))
       ∧ isDigitCode c1 ∧ isDigitCode c2 ∧ isDigitCode c3
       ∧ (100 * (nat_of_ascii c1 - 48) + 10 * (nat_of_ascii c2 - 48)
          + (nat_of_ascii c3 - 48) ≤ 255)%nat).
Proof.
  unfold isOctet, isDigitCode.
  destruct o as [|c1 [|c2 [|c3 [|c4 o]]]];
    cbn [Str.isEmpty negb String.length allIn decimal decimalFrom andb Nat.leb].
  - split; [done |]. by intros [(? & ? & _)|[(? & ? & ? & _)|(? & ? & ? & ? & _)]].
  - rewrite !andb_true_r, andb_true_iff, Nat.leb_le, (inClass_range "0" "9" c1).
    change (nat_of_ascii "0"%char) with 48%nat. change (nat_of_ascii "9"%char) with 57%nat.
    unfold digitValue. split.
    + intros [H _]. left. eauto.
    + intros [(c & E & H)|[(? & ? & E & _)|(? & ? & ? & E & _)]]; [|done..].
      inversion E; subst. split; [done | lia].
  - rewrite !andb_true_r, !andb_true_iff, Nat.leb_le,
      (inClass_range "0" "9" c1), (inClass_range "0" "9" c2).
    change (nat_of_ascii "0"%char) with 48%nat. change (nat_of_ascii "9"%char) with 57%nat.
    unfold digitValue. split.
    + intros [[H1 H2] _]. right. left. eauto 10.
    + intros [(? & E & _)|[(? & ? & E & H1 & H2)|(? & ? & ? & E & _)]]; [done| |done].
      inversion E; subst. split; [done | lia].
  - rewrite !andb_true_r, !andb_true_iff, Nat.leb_le,
      (inClass_range "0" "9" c1), (inClass_range "0" "9" c2), (inClass_range "0" "9" c3).
    change (nat_of_ascii "0"%char) with 48%nat. change (nat_of_ascii "9"%char) with 57%nat.
    unfold digitValue. split.
    + intros [[H1 [H2 H3]] H]. right. right. exists c1, c2, c3.
      repeat split; try tauto. lia.
    + intros [(? & E & _)|[(? & ? & E & _)|(? & ? & ? & E & H1 & H2 & H3 & H)]]; [done..|].
      inversion E; subst. repeat split; try tauto. lia.
  - split; [done |].
    by intros [(? & ? & _)|[(? & ? & ? & _)|(? & ? & ? & ? & _)]].
Qed.

(** The group of the address pattern matches the octets. *)
Lemma lang_octet (o : string) : lang octetRegex o ↔ isOctet o = true.
Proof.
  rewrite isOctet_cases. unfold isDigitCode. split.
  - intros H. unfold octetRegex, chr in H. cbn [lang] in H.
    destruct H as
      [(x & y & -> & (c1 & -> & H1) & (x' & y' & -> & (c2 & -> & H2) & (c3 & -> & H3)))
      |[(x & y & -> & (c1 & -> & H1) & (x' & y' & -> & (c2 & -> & H2) & (c3 & -> & H3)))
       |(x & y & -> & [->|(c1 & -> & H1)]
           & (x' & y' & -> & (c2 & -> & H2) & [->|(c3 & -> & H3)]))]];
      char_codes; cbn [String.append].
    + right. right. exists c1, c2, c3. repeat split; lia.
    + right. right. exists c1, c2, c3. repeat split; lia.
    + left. exists c2. repeat split; lia.
    + right. left. exists c2, c3. repeat split; lia.
    + right. left. exists c1, c2. repeat split; lia.
    + right. right. exists c1, c2, c3. repeat split; lia.
  - unfold octetRegex, chr. cbn [lang].
    intros [(c1 & -> & H1)|[(c1 & c2 & -> & H1 & H2)|(c1 & c2 & c3 & -> & H1 & H2 & H3 & H)]].
    + right. right. exists EmptyString, (String c1 EmptyString). split; [done |].
      split; [by left |]. exists (String c1 EmptyString), EmptyString. split; [done |].
      split; [|by left]. exists c1. split; [done |]. char_codes. lia.
    + right. right. exists EmptyString, (String c1 (String c2 EmptyString)). split; [done |].
      split; [by left |]. exists (String c1 EmptyString), (String c2 EmptyString).
      split; [done |]. split.
      * exists c1. split; [done |]. char_codes. lia.
      * right. exists c2. split; [done |]. char_codes. lia.
    + destruct (decide (nat_of_ascii c1 ≤ 49)%nat) as [Hlow|Hhigh].
      { right. right. exists (String c1 EmptyString), (String c2 (String c3 EmptyString)).
        split; [done |]. split.
        - right. exists c1. split; [done |]. char_codes. lia.
        - exists (String c2 EmptyString), (String c3 EmptyString). split; [done |]. split.
          + exists c2. split; [done |]. char_codes. lia.
          + right. exists c3. split; [done |]. char_codes. lia. }
      destruct (decide (nat_of_ascii c2 ≤ 52)%nat) as [Hlow|Hhigh2].
      { right. left. exists (String c1 EmptyString), (String c2 (String c3 EmptyString)).
        split; [done |]. split.
        - exists c1. split; [done |]. char_codes. lia.
        - exists (String c2 EmptyString), (String c3 EmptyString). split; [done |]. split.
          + exists c2. split; [done |]. char_codes. lia.
          + exists c3. split; [done |]. char_codes. lia. }
      left. exists (String c1 EmptyString), (String c2 (String c3 EmptyString)).
      split; [done |]. split.
      * exists c1. split; [done |]. char_codes. lia.
      * exists (String c2 EmptyString), (String c3 EmptyString). split; [done |]. split.
        -- exists c2. split; [done |]. char_codes. lia.
        -- exists c3. split; [done |]. char_codes. lia.
Qed.

End RegexFacts.

(** ** What a call does to the store and to the log *)

Section EffectFacts.

Variable dns : string → TxtAnswer.
Variable maxDepth : Z.

Lemma forIncludes_effects (rec : Resolve) depth (V' : gset string)
    (f : string → SpfNode) (g : string → list string) :
  (∀ inc (l : Ref) (w : World), sets w !! l = Some V' →
     ∃ w', rec inc (depth + 1) maxDepth l w = Some (f inc, w')
         ∧ (∀ l' : Ref, l' ≠ l → (l' < length (sets w))%nat → sets w' !! l' = sets w !! l')
         ∧ queries w' = queries w ++ g inc
         ∧ (length (sets w') + 1 = length (sets w) + treeSize (f inc))%nat) →
  ∀ incs result (l : Ref) (w : World), sets w !! l = Some V' →
    ∃ w', forIncludes rec depth maxDepth l incs result w =
            Some (mkSpfNode (domain result) (ipRanges result)
                    (children result ++ map f incs) (error result) (spfRecord result), w')
        ∧ (∀ l' : Ref, (l' < length (sets w))%nat → sets w' !! l' = sets w !! l')
        ∧ queries w' = queries w ++ flat_map g incs
        ∧ (length (sets w')
           = length (sets w) + foldr (λ inc n, treeSize (f inc) + n) 0 incs)%nat.
Proof.
  intros Hrec incs. induction incs as [|inc rest IH]; intros result l w Hl.
  - exists w. simpl. rewrite !app_nil_r. split; [by destruct result |].
    split; [done |]. split; [done | lia].
  - cbn [forIncludes Set_copy]. rewrite Hl.
    change (default ∅ (Some V')) with V'.
    set (w1 := mkWorld (sets w ++ [V']) (queries w)).
    pose proof (lookup_lt_Some _ _ _ Hl) as Hlt.
    destruct (Hrec inc (length (sets w)) w1) as (w2 & -> & Hframe & Hq & Hlen).
    { subst w1. simpl. by rewrite list_lookup_middle. }
    assert (Hkeep : ∀ l' : Ref, (l' < length (sets w))%nat → sets w2 !! l' = sets w !! l').
    { intros l' Hl'. rewrite Hframe; [| lia | subst w1; simpl; rewrite length_app; lia].
      subst w1. simpl. by rewrite lookup_app_l. }
    destruct (IH (push_child (f inc) result) l w2) as (w' & -> & Hframe' & Hq' & Hlen').
    { by rewrite Hkeep. }
    exists w'. split; [|split; [|split]].
    + simpl. by rewrite <- app_assoc.
    + intros l' Hl'. rewrite Hframe'; [by apply Hkeep |].
      apply lookup_lt_is_Some. rewrite Hkeep by done. by apply lookup_lt_is_Some.
    + rewrite Hq', Hq. subst w1. cbn [queries flat_map]. by rewrite app_assoc.
    + rewrite Hlen'. subst w1. cbn [sets foldr] in *. rewrite length_app in Hlen.
      cbn [length] in Hlen. lia.
Qed.

Lemma treeSize_unfold d rs cs e s :
  treeSize (mkSpfNode d rs cs e s) = S (foldr (λ child n, (treeSize child + n)%nat) 0%nat cs).
Proof. done. Qed.

Lemma lookups_unfold depth V d rs cs e s :
  lookups depth maxDepth V (mkSpfNode d rs cs e s) =
  if cutOff d depth maxDepth V then []
  else d :: flat_map (lookups (depth + 1) maxDepth (V ∪ {[d]})) cs.
Proof. done. Qed.

(** A call returns its tree, appends to the log the lookups of the nodes
    that were not cut off, and creates one [Set] for every node below the
    root. *)
Lemma lookup_effects d depth V (n : nat) (l : Ref) (w : World) :
  sets w !! l = Some V → (fuel_for depth maxDepth ≤ n)%nat →
  ∃ w', lookupSpfRecords dns n d depth maxDepth l w
        = Some (resolveTree dns d depth maxDepth V, w')
      ∧ (∀ l' : Ref, l' ≠ l → (l' < length (sets w))%nat → sets w' !! l' = sets w !! l')
      ∧ sets w' !! l = Some (if cutOff d depth maxDepth V then V else V ∪ {[d]})
      ∧ queries w' = queries w ++ lookups depth maxDepth V (resolveTree dns d depth maxDepth V)
      ∧ (length (sets w') + 1
         = length (sets w) + treeSize (resolveTree dns d depth maxDepth V))%nat.
Proof.
  remember (Z.to_nat (maxDepth + 1 - depth)) as k eqn:Hk.
  revert d depth V n l w Hk.
  induction (lt_wf k) as [k _ IH]. intros d depth V n l w Hk Hl Hn.
  unfold fuel_for in Hn. destruct n as [|n]; [lia |].
  rewrite lookupSpfRecords_S, (Set_has_contents _ _ _ _ Hl), resolveTree_unfold.
  unfold expected, terminalNode.
  assert (Hdone : ∀ msg, cutOff d depth maxDepth V = true →
            ∃ w', Some (mkSpfNode d [] [] (Some msg) None, w)
                  = Some (mkSpfNode d [] [] (Some msg) None, w')
                ∧ (∀ l' : Ref, l' ≠ l → (l' < length (sets w))%nat →
                     sets w' !! l' = sets w !! l')
                ∧ sets w' !! l = Some (if cutOff d depth maxDepth V then V else V ∪ {[d]})
                ∧ queries w' = queries w
                               ++ lookups depth maxDepth V (mkSpfNode d [] [] (Some msg) None)
                ∧ (length (sets w') + 1
                   = length (sets w) + treeSize (mkSpfNode d [] [] (Some msg) None))%nat).
  { intros msg Hcut. exists w. rewrite lookups_unfold, Hcut, app_nil_r, treeSize_unfold.
    cbn [foldr]. split; [done |]. split; [done |]. split; [done |]. split; [done | lia]. }
  destruct (maxDepth <? depth) eqn:Hd; cbn [orb].
  { apply Hdone. unfold cutOff. by rewrite Hd. }
  destruct (bool_decide (d ∈ V)) eqn:Hv.
  { apply Hdone. unfold cutOff. by rewrite Hd, Hv. }
  clear Hdone. apply Z.ltb_ge in Hd.
  pose proof (lookup_lt_Some _ _ _ Hl) as Hlt.
  cbn [Set_add sets queries].
  set (w2 := mkWorld (alter (λ s, s ∪ {[d]}) l (sets w)) (queries w ++ [d])).
  assert (Hl2 : sets w2 !! l = Some (V ∪ {[d]})).
  { subst w2. cbn [sets]. by rewrite list_lookup_alter_eq, Hl. }
  assert (Hother : ∀ l' : Ref, l' ≠ l → sets w2 !! l' = sets w !! l').
  { intros l' Hne. subst w2. cbn [sets]. by rewrite list_lookup_alter_ne. }
  assert (Hlen2 : length (sets w2) = length (sets w)).
  { subst w2. cbn [sets]. by rewrite length_alter. }
  assert (Hnocut : cutOff d depth maxDepth V = false).
  { unfold cutOff. apply orb_false_iff. split; [by apply Z.ltb_ge | done]. }
  destruct (dns d) as [message|records].
  { exists w2. rewrite lookups_unfold, Hnocut, treeSize_unfold. cbn [flat_map foldr].
    split; [done |]. split; [intros l' Hne _; by apply Hother |].
    split; [done |]. split; [done | lia]. }
  rewrite forRecords_firstSpf.
  destruct (firstSpf records) as [recordStr|].
  2:{ exists w2. rewrite lookups_unfold, Hnocut, treeSize_unfold. cbn [flat_map foldr].
      split; [done |]. split; [intros l' Hne _; by apply Hother |].
      split; [done |]. split; [done | lia]. }
  cbn zeta.
  destruct (forIncludes_effects (lookupSpfRecords dns n) depth (V ∪ {[d]})
              (λ inc, resolveTree dns inc (depth + 1) maxDepth (V ∪ {[d]}))
              (λ inc, lookups (depth + 1) maxDepth (V ∪ {[d]})
                        (resolveTree dns inc (depth + 1) maxDepth (V ∪ {[d]})))) with
    (incs := includes (parseSpfRecord recordStr))
    (result := set_spfRecord (Some recordStr)
                 (set_ipRanges (ipv4 (parseSpfRecord recordStr)) (mkSpfNode d [] [] None None)))
    (l := l) (w := w2) as (w' & -> & Hframe & Hq & Hlen).
  { intros inc l0 w0 Hl0.
    destruct (IH (Z.to_nat (maxDepth + 1 - (depth + 1))) ltac:(lia) inc (depth + 1)
                (V ∪ {[d]}) n l0 w0 eq_refl Hl0) as (w0' & E & F & _ & Q & L).
    - unfold fuel_for. lia.
    - exists w0'. eauto. }
  { done. }
  exists w'. cbn [set_spfRecord set_ipRanges domain ipRanges children error spfRecord app].
  split; [done |]. split; [|split; [|split]].
  - intros l' Hne Hl'. rewrite Hframe by lia. by apply Hother.
  - rewrite Hframe by lia. by rewrite Hnocut.
  - rewrite Hq, lookups_unfold, Hnocut. subst w2. cbn [queries].
    rewrite <- app_assoc. cbn [app]. do 2 f_equal.
    generalize (includes (parseSpfRecord recordStr)). intros incs.
    induction incs as [|inc incs IHincs]; [done |].
    cbn [map flat_map]. by rewrite IHincs.
  - rewrite Hlen, Hlen2, treeSize_unfold.
    assert (Hsum : ∀ incs : list string,
              foldr (λ inc n, (treeSize (resolveTree dns inc (depth + 1) maxDepth (V ∪ {[d]})) + n)%nat)
                0%nat incs
              = foldr (λ child n, (treeSize child + n)%nat) 0%nat
                  (map (λ inc, resolveTree dns inc (depth + 1) maxDepth (V ∪ {[d]})) incs)).
    { intros incs. induction incs as [|inc incs IHincs]; [done |]. cbn [map foldr].
      by rewrite IHincs. }
    rewrite Hsum. lia.
Qed.

End EffectFacts.

(** ** More on the record parser *)

Module ParserFacts.
Import Str StrFacts.

#[local] Arguments String.append !_ _ / : simpl nomatch.

Lemma includes_unfold (p s : string) :
  includes p s =
  match stripPrefix p s with
  | Some _ => true
  | None => match s with
            | EmptyString => false
            | String _ s' => includes p s'
            end
  end.
Proof. by destruct s. Qed.

(** [includes] is the test for a substring. *)
Lemma includes_spec (p s : string) :
  includes p s = true ↔ ∃ a b, s = a +:+ p +:+ b.
Proof.
  induction s as [|c s IH]; rewrite includes_unfold.
  - destruct (stripPrefix p EmptyString) as [r|] eqn:E.
    + apply stripPrefix_Some in E. split; [|done]. intros _. by exists EmptyString, r.
    + split; [done |]. intros (a & b & H). destruct a; [|done]. simpl in H.
      by rewrite H, stripPrefix_append in E.
  - destruct (stripPrefix p (String c s)) as [r|] eqn:E.
    + apply stripPrefix_Some in E. split; [|done]. intros _. by exists EmptyString, r.
    + rewrite IH. split.
      * intros (a & b & ->). by exists (String c a), b.
      * intros (a & b & H). destruct a as [|c' a].
        -- simpl in H. by rewrite H, stripPrefix_append in E.
        -- simpl in H. inversion H; subst. by exists a, b.
Qed.

Lemma tokensFrom_elem (cur s t : string) :
  allNonWs cur = true → t ∈ tokensFrom cur s →
  isEmpty t = false ∧ allNonWs t = true ∧ ∃ a b, cur +:+ s = a +:+ t +:+ b.
Proof.
  revert cur. induction s as [|c s IH]; intros cur Hcur; cbn [tokensFrom].
  - destruct (isEmpty cur) eqn:E; [by intros ?%elem_of_nil |].
    intros ->%list_elem_of_singleton. split; [done |]. split; [done |].
    exists EmptyString, EmptyString. by rewrite !append_nil_r.
  - destruct (isWhitespace c) eqn:Hc.
    + intros [Ht|Ht]%elem_of_app.
      * destruct (isEmpty cur) eqn:E; [by apply elem_of_nil in Ht |].
        apply list_elem_of_singleton in Ht as ->. split; [done |]. split; [done |].
        by exists EmptyString, (String c s).
      * destruct (IH EmptyString eq_refl Ht) as (Hne & Hnw & a & b & E).
        split; [done |]. split; [done |]. simpl in E.
        exists (cur +:+ String c a), b. rewrite E, append_assoc. done.
    + intros Ht. destruct (IH (cur +:+ String c EmptyString)) as (Hne & Hnw & a & b & E).
      * rewrite allNonWs_append, Hcur. simpl. by rewrite Hc.
      * done.
      * split; [done |]. split; [done |]. exists a, b.
        rewrite <- E, append_assoc. done.
Qed.

Lemma valueAfter_unfold (lit tok : string) :
  valueAfter lit tok =
  match stripPrefix lit tok with
  | Some (String c v) => [String c v]
  | _ => match tok with
         | EmptyString => []
         | String _ tok' => valueAfter lit tok'
         end
  end.
Proof. by destruct tok. Qed.

Lemma valueAfter_elem (lit tok v : string) :
  v ∈ valueAfter lit tok → isEmpty v = false ∧ ∃ a, tok = a +:+ lit +:+ v.
Proof.
  induction tok as [|c tok IH]; rewrite valueAfter_unfold.
  - destruct (stripPrefix lit EmptyString) as [[|c' r]|] eqn:E;
      try (by intros ?%elem_of_nil).
    intros ->%list_elem_of_singleton. apply stripPrefix_Some in E.
    split; [done |]. by exists EmptyString.
  - assert (Hrest : v ∈ valueAfter lit tok →
              isEmpty v = false ∧ ∃ a, String c tok = a +:+ lit +:+ v).
    { intros (Hne & a & ->)%IH. split; [done |]. by exists (String c a). }
    destruct (stripPrefix lit (String c tok)) as [[|c' r]|] eqn:E; try done.
    intros ->%list_elem_of_singleton. apply stripPrefix_Some in E.
    split; [done |]. by exists EmptyString.
Qed.

(** The values found in a record for the prefix [lit]. *)
Lemma token_values (lit s v : string) :
  v ∈ flat_map (valueAfter lit) (tokens s) →
  v ≠ EmptyString ∧ allNonWs v = true ∧ includes (lit +:+ v) s = true.
Proof.
  intros (tok & Htok & Hv)%list_elem_of_In%in_flat_map.
  apply list_elem_of_In in Htok, Hv.
  destruct (tokensFrom_elem EmptyString s tok eq_refl Htok) as (_ & Hnw & a & b & E).
  destruct (valueAfter_elem _ _ _ Hv) as (Hne & a' & ->).
  split; [by destruct v |]. split.
  - rewrite !allNonWs_append in Hnw.
    apply andb_true_iff in Hnw as [_ Hnw]. by apply andb_true_iff in Hnw as [_ Hnw].
  - apply includes_spec. simpl in E. exists (a +:+ a'), b.
    rewrite E, !append_assoc. done.
Qed.

Lemma tokensFrom_split (cur s1 s2 : string) (c : ascii) :
  isWhitespace c = true →
  tokensFrom cur (s1 +:+ String c s2) = tokensFrom cur s1 ++ tokens s2.
Proof.
  intros Hc. revert cur. induction s1 as [|a s1 IH]; intros cur; simpl.
  - by rewrite Hc.
  - destruct (isWhitespace a); [|apply IH].
    by rewrite IH, app_assoc.
Qed.

Lemma matchAllFrom_absent (lit s : string) :
  includes lit s = false → ∀ skip, matchAllFrom lit skip s = [].
Proof.
  induction s as [|c s IH]; intros H skip; [done |].
  rewrite includes_unfold in H.
  destruct (stripPrefix lit (String c s)) eqn:E; [done |].
  cbn [matchAllFrom]. rewrite E. destruct skip; by apply IH.
Qed.

End ParserFacts.

(** X1.  Every value the parser returns has at least one character and no
    whitespace, and stands in the record directly after its prefix. *)
Theorem parser_values_come_from_record :
  ∀ s v,
    (v ∈ ipv4 (parseSpfRecord s) →
       v ≠ EmptyString ∧ Str.allNonWs v = true ∧ Str.includes ("ip4:" +:+ v) s = true)
    ∧ (v ∈ includes (parseSpfRecord s) →
       v ≠ EmptyString ∧ Str.allNonWs v = true ∧ Str.includes ("include:" +:+ v) s = true).
Proof.
  intros s v. rewrite parseSpfRecord_tokens. cbn [ipv4 includes].
  split; apply ParserFacts.token_values.
Qed.

Lemma parser_values_come_from_record_witness :
  "a.com" ≠ EmptyString ∧ Str.allNonWs "a.com" = true
  ∧ Str.includes ("include:" +:+ "a.com") "v=spf1 include:a.com include:c.com" = true.
Proof.
  apply (proj2 (parser_values_come_from_record "v=spf1 include:a.com include:c.com" "a.com")).
  vm_compute. apply list_elem_of_here.
Defined.

(** X2.  Parsing two pieces joined by a whitespace character gives the
    values of the first piece followed by those of the second. *)
Theorem parser_splits_at_whitespace :
  ∀ s1 s2 c,
    Str.isWhitespace c = true →
    parseSpfRecord (s1 +:+ String c s2)
    = {| ipv4 := ipv4 (parseSpfRecord s1) ++ ipv4 (parseSpfRecord s2);
         includes := includes (parseSpfRecord s1) ++ includes (parseSpfRecord s2) |}.
Proof.
  intros s1 s2 c Hc. rewrite !parseSpfRecord_tokens. cbn [ipv4 includes].
  unfold tokens at 1 2. rewrite (ParserFacts.tokensFrom_split _ _ _ _ Hc).
  fold (tokens s1). by rewrite !flat_map_app.
Qed.

Lemma parser_splits_at_whitespace_witness :
  parseSpfRecord ("v=spf1 ip4:10.0.0.0/8" +:+ String " " "include:b.com -all")
  = {| ipv4 := ipv4 (parseSpfRecord "v=spf1 ip4:10.0.0.0/8")
               ++ ipv4 (parseSpfRecord "include:b.com -all");
       includes := includes (parseSpfRecord "v=spf1 ip4:10.0.0.0/8")
                   ++ includes (parseSpfRecord "include:b.com -all") |}.
Proof.
  apply (parser_splits_at_whitespace "v=spf1 ip4:10.0.0.0/8" "include:b.com -all" " ").
  reflexivity.
Defined.

(** X3.  A record in which "ip4:" does not occur has no [ip4] values, and
    one in which "include:" does not occur has no include targets. *)
Theorem parser_needs_prefix :
  ∀ s,
    (Str.includes "ip4:" s = false → ipv4 (parseSpfRecord s) = [])
    ∧ (Str.includes "include:" s = false → includes (parseSpfRecord s) = []).
Proof.
  intros s. unfold parseSpfRecord, Str.matchAll. cbn [ipv4 includes].
  split; intros H; by rewrite (ParserFacts.matchAllFrom_absent _ _ H).
Qed.

Lemma parser_needs_prefix_witness :
  ipv4 (parseSpfRecord "v=spf1 include:b.com ip6:2001:db8::/32 -all") = [].
Proof.
  apply (proj1 (parser_needs_prefix "v=spf1 include:b.com ip6:2001:db8::/32 -all")).
  reflexivity.
Defined.

(** ** More on the resolver *)

Lemma lookups_length (maxDepth : Z) (tree : SpfNode) :
  ∀ depth V, (length (lookups depth maxDepth V tree) ≤ treeSize tree)%nat.
Proof.
  induction tree as [d rs cs e s IH] using SpfNode_forall_ind. intros depth V.
  rewrite lookups_unfold, treeSize_unfold.
  destruct (cutOff d depth maxDepth V); cbn [length]; [lia |].
  apply le_n_S. generalize (depth + 1) (V ∪ {[d]}). intros depth' V'.
  induction IH as [|c cs Hc _ IHcs]; cbn [flat_map foldr length]; [lia |].
  rewrite length_app. specialize (Hc depth' V'). lia.
Qed.

Lemma lookups_elem (maxDepth : Z) (tree : SpfNode) :
  ∀ depth V q, q ∈ lookups depth maxDepth V tree →
    ∃ anc x, PathTo tree anc x ∧ domain x = q.
Proof.
  induction tree as [d rs cs e s IH] using SpfNode_forall_ind. intros depth V q.
  rewrite lookups_unfold.
  destruct (cutOff d depth maxDepth V); [by intros ?%elem_of_nil |].
  intros [->|Hq]%elem_of_cons.
  - exists [], (mkSpfNode d rs cs e s). split; [constructor | done].
  - apply list_elem_of_In, in_flat_map in Hq as (c & Hc & Hq).
    apply list_elem_of_In in Hc, Hq.
    destruct (proj1 (Forall_forall _ _) IH c Hc _ _ _ Hq) as (anc & x & Hp & Hx).
    exists (mkSpfNode d rs cs e s :: anc), x. split; [|done].
    by apply path_step with (c := c).
Qed.

(** X4.  The lookups a call issues are appended to the log in the order
    in which its tree is built: one for every node that was not cut off,
    none for a node that was.  So there is at most one lookup per node,
    each for the domain of a node, and nothing is remembered from one
    branch to the next. *)
Theorem lookup_log :
  ∀ (dns : string → TxtAnswer) (d : string) (depth maxDepth : Z)
    (l : Ref) (w : World) (V : gset string) (n : nat),
    sets w !! l = Some V → (fuel_for depth maxDepth ≤ n)%nat →
    ∃ node w',
      lookupSpfRecords dns n d depth maxDepth l w = Some (node, w')
      ∧ queries w' = queries w ++ lookups depth maxDepth V node
      ∧ (length (queries w') ≤ length (queries w) + treeSize node)%nat
      ∧ ∀ q, q ∈ lookups depth maxDepth V node → ∃ anc x, PathTo node anc x ∧ domain x = q.
Proof.
  intros dns d depth maxDepth l w V n Hl Hn.
  destruct (lookup_effects dns maxDepth d depth V n l w Hl Hn) as (w' & E & _ & _ & Hq & _).
  exists (resolveTree dns d depth maxDepth V), w'. split; [done |]. split; [done |].
  split; [|apply lookups_elem].
  rewrite Hq, length_app.
  pose proof (lookups_length maxDepth (resolveTree dns d depth maxDepth V) depth V). lia.
Qed.

Lemma lookup_log_witness :
  ∃ node w',
    lookupSpfRecords dnsDiamond 12 "root.com" 0 10 0%nat (mkWorld [∅] ["earlier.com"])
    = Some (node, w')
    ∧ queries w' = ["earlier.com"; "root.com"; "w.com"; "x.com"; "z.com"; "y.com"; "z.com"].
Proof.
  destruct (lookup_log dnsDiamond "root.com" 0 10 0%nat (mkWorld [∅] ["earlier.com"]) ∅ 12%nat)
    as (node & w' & E & Hq & _).
  - reflexivity.
  - vm_compute. lia.
  - exists node, w'. split; [exact E |]. rewrite Hq.
    apply (f_equal (fmap fst)) in E. vm_compute in E. inversion E; subst node.
    by vm_compute.
Defined.

(** X5.  A call creates one [Set] for every node of its tree below the
    root, the copy handed to the call that built the node, and none
    otherwise. *)
Theorem lookup_allocates_one_set_per_child :
  ∀ (dns : string → TxtAnswer) (d : string) (depth maxDepth : Z)
    (l : Ref) (w : World) (V : gset string) (n : nat),
    sets w !! l = Some V → (fuel_for depth maxDepth ≤ n)%nat →
    ∃ node w',
      lookupSpfRecords dns n d depth maxDepth l w = Some (node, w')
      ∧ (length (sets w') + 1 = length (sets w) + treeSize node)%nat.
Proof.
  intros dns d depth maxDepth l w V n Hl Hn.
  destruct (lookup_effects dns maxDepth d depth V n l w Hl Hn) as (w' & E & _ & _ & _ & Hlen).
  by exists (resolveTree dns d depth maxDepth V), w'.
Qed.

Lemma lookup_allocates_one_set_per_child_witness :
  ∃ node w',
    lookupSpfRecords dnsDiamond 12 "root.com" 0 10 0%nat (mkWorld [∅] []) = Some (node, w')
    ∧ (length (sets w') + 1 = length (sets (mkWorld [∅] [])) + treeSize node)%nat.
Proof.
  apply (lookup_allocates_one_set_per_child dnsDiamond "root.com" 0 10 0%nat
           (mkWorld [∅] []) ∅ 12%nat).
  - reflexivity.
  - vm_compute. lia.
Defined.

(** X6.  After a call with [depth <= maxDepth] the set it was given holds
    its domain, so a second call for the same domain with the same set is
    cut off: it returns "Circular reference detected" and looks nothing
    up. *)
Theorem second_call_is_cut_off :
  ∀ (dns : string → TxtAnswer) (d : string) (depth maxDepth : Z)
    (l : Ref) (w : World) (V : gset string) (n : nat),
    sets w !! l = Some V → (fuel_for depth maxDepth ≤ n)%nat → depth ≤ maxDepth →
    ∃ node w',
      lookupSpfRecords dns n d depth maxDepth l w = Some (node, w')
      ∧ Set_has l d w' = true
      ∧ lookupSpfRecords dns n d depth maxDepth l w'
        = Some (terminalNode d "Circular reference detected", w').
Proof.
  intros dns d depth maxDepth l w V n Hl Hn Hd.
  destruct (lookup_resolveTree dns maxDepth d depth V n l w Hl Hn) as (w' & E & _ & Hset).
  exists (resolveTree dns d depth maxDepth V), w'. split; [done |].
  assert (Hhas : Set_has l d w' = true).
  { rewrite (Set_has_contents _ _ _ _ Hset). apply bool_decide_eq_true.
    unfold cutOff. apply Z.ltb_ge in Hd. rewrite Hd. cbn [orb].
    destruct (bool_decide (d ∈ V)) eqn:Hv.
    - by apply bool_decide_eq_true in Hv.
    - set_solver. }
  split; [done |].
  unfold fuel_for in Hn. destruct n as [|n]; [lia |].
  rewrite lookupSpfRecords_S, Hhas. apply Z.ltb_ge in Hd. by rewrite Hd.
Qed.

Lemma second_call_is_cut_off_witness :
  ∃ node w',
    lookupSpfRecords dnsAB 12 "c.com" 0 10 0%nat (mkWorld [∅] []) = Some (node, w')
    ∧ Set_has 0%nat "c.com" w' = true
    ∧ lookupSpfRecords dnsAB 12 "c.com" 0 10 0%nat w'
      = Some (terminalNode "c.com" "Circular reference detected", w').
Proof.
  apply (second_call_is_cut_off dnsAB "c.com" 0 10 0%nat (mkWorld [∅] []) ∅ 12%nat).
  - reflexivity.
  - vm_compute. lia.
  - lia.
Defined.

Lemma firstSpf_marker (records : list TxtRecord) (recordStr : string) :
  firstSpf records = Some recordStr → Str.includes "v=spf1" recordStr = true.
Proof.
  induction records as [|r rs IH]; cbn [firstSpf]; [done |].
  destruct (Str.includes "v=spf1" (toString r)) eqn:E; [|done].
  intros H. by inversion H; subst.
Qed.

Lemma resolveTree_followsRecord (dns : string → TxtAnswer) d depth maxDepth V :
  followsRecord (resolveTree dns d depth maxDepth V).
Proof.
  unfold followsRecord. rewrite resolveTree_unfold. unfold expected, terminalNode.
  destruct (maxDepth <? _); [done |].
  destruct (bool_decide _); [done |].
  destruct (dns d) as [message|records]; [done |].
  destruct (firstSpf records) as [recordStr|] eqn:Hfirst; [|done].
  cbn [spfRecord error ipRanges children].
  split; [by apply firstSpf_marker in Hfirst |]. split; [done |]. split; [done |].
  rewrite <- list_fmap_compose.
  generalize (includes (parseSpfRecord recordStr)). intros incs.
  induction incs as [|inc incs IH]; [done |].
  cbn [fmap list_fmap compose]. rewrite domain_resolveTree. f_equal. exact IH.
Qed.

(** X7.  In every node of every tree returned by a call, the ranges and
    the children are those of the node's own record: a node with a record
    has no error, its record contains "v=spf1", its ranges are the [ip4]
    values of the record and its children are, in order, nodes for the
    include targets of the record; a node without a record has neither
    ranges nor children. *)
Theorem nodes_follow_their_record :
  ∀ (dns : string → TxtAnswer) (d : string) (depth maxDepth : Z)
    (l : Ref) (w : World) (V : gset string) (n : nat),
    sets w !! l = Some V → (fuel_for depth maxDepth ≤ n)%nat →
    ∃ node w',
      lookupSpfRecords dns n d depth maxDepth l w = Some (node, w')
      ∧ ∀ anc x, PathTo node anc x →
          match spfRecord x with
          | Some recordStr =>
              Str.includes "v=spf1" recordStr = true
              ∧ error x = None
              ∧ ipRanges x = ipv4 (parseSpfRecord recordStr)
              ∧ domain <$> children x = includes (parseSpfRecord recordStr)
          | None => ipRanges x = [] ∧ children x = []
          end.
Proof.
  intros dns d depth maxDepth l w V n Hl Hn.
  destruct (lookup_resolveTree dns maxDepth d depth V n l w Hl Hn) as (w' & E & _).
  exists (resolveTree dns d depth maxDepth V), w'. split; [done |].
  intros anc x Hpath.
  destruct (subtree_resolveTree _ _ _ _ _ _ _ Hpath) as (Hx & _).
  rewrite Hx. apply resolveTree_followsRecord.
Qed.

Lemma nodes_follow_their_record_witness :
  ∃ node w',
    lookupSpfRecords dnsAB 12 "a.com" 0 10 0%nat (mkWorld [∅] []) = Some (node, w')
    ∧ ∀ anc x, PathTo node anc x →
        match spfRecord x with
        | Some recordStr =>
            Str.includes "v=spf1" recordStr = true
            ∧ error x = None
            ∧ ipRanges x = ipv4 (parseSpfRecord recordStr)
            ∧ domain <$> children x = includes (parseSpfRecord recordStr)
        | None => ipRanges x = [] ∧ children x = []
        end.
Proof.
  apply (nodes_follow_their_record dnsAB "a.com" 0 10 0%nat (mkWorld [∅] []) ∅ 12%nat).
  - reflexivity.
  - vm_compute. lia.
Defined.

(** ** More on the collector and the matcher *)

Lemma preorder_elem (tree : SpfNode) :
  ∀ e, e ∈ preorder tree
       ↔ ∃ anc x, PathTo tree anc x ∧ Entry.domain e = domain x
                  ∧ Entry.range e ∈ ipRanges x.
Proof.
  induction tree as [d rs cs e0 s IH] using SpfNode_forall_ind. intros e.
  cbn [preorder ipRanges domain children]. rewrite elem_of_app. split.
  - intros [(r & -> & Hr)%list_elem_of_fmap|He].
    + exists [], (mkSpfNode d rs cs e0 s). split; [constructor | done].
    + apply list_elem_of_In, in_flat_map in He as (c & Hc & He).
      apply list_elem_of_In in Hc, He.
      apply (proj1 (Forall_forall _ _) IH c Hc) in He as (anc & x & Hp & Hx).
      exists (mkSpfNode d rs cs e0 s :: anc), x. split; [|done].
      by apply path_step with (c := c).
  - intros (anc & x & Hp & Hd & Hr).
    inversion Hp as [|? c anc' ? Hc Hp']; subst.
    + left. apply list_elem_of_fmap. exists (Entry.range e). split; [|done].
      destruct e as [r d']. cbn in *. by subst.
    + right. cbn [children] in Hc. apply list_elem_of_In, in_flat_map. exists c.
      split; [by apply list_elem_of_In |]. apply list_elem_of_In.
      apply (proj1 (Forall_forall _ _) IH c Hc). eauto.
Qed.

(** X8.  The collector loses nothing and invents nothing: an entry is in
    its result exactly when its range is among the ranges of a node of the
    tree and its domain is that node's domain. *)
Theorem collect_membership :
  ∀ tree e,
    e ∈ collectAllIpRanges tree []
    ↔ ∃ anc x, PathTo tree anc x ∧ Entry.domain e = domain x
               ∧ Entry.range e ∈ ipRanges x.
Proof.
  intros tree e. rewrite collectAllIpRanges_preorder. apply preorder_elem.
Qed.

(** X9.  Every range collected from a resolved tree is an [ip4] value of
    the record fetched for the domain it is attributed to, at a node
    without error; it is not empty and has no whitespace. *)
Theorem collected_ranges_come_from_records :
  ∀ (dns : string → TxtAnswer) (d : string) (depth maxDepth : Z)
    (l : Ref) (w : World) (V : gset string) (n : nat),
    sets w !! l = Some V → (fuel_for depth maxDepth ≤ n)%nat →
    ∃ node w',
      lookupSpfRecords dns n d depth maxDepth l w = Some (node, w')
      ∧ ∀ e, e ∈ collectAllIpRanges node [] →
          Entry.range e ≠ EmptyString ∧ Str.allNonWs (Entry.range e) = true
          ∧ ∃ anc x recordStr,
              PathTo node anc x ∧ domain x = Entry.domain e ∧ error x = None
              ∧ spfRecord x = Some recordStr
              ∧ Entry.range e ∈ ipv4 (parseSpfRecord recordStr).
Proof.
  intros dns d depth maxDepth l w V n Hl Hn.
  destruct (lookup_resolveTree dns maxDepth d depth V n l w Hl Hn) as (w' & E & _).
  exists (resolveTree dns d depth maxDepth V), w'. split; [done |].
  intros e He. rewrite collectAllIpRanges_preorder in He. cbn [app] in He.
  apply preorder_elem in He as (anc & x & Hp & Hd & Hr).
  destruct (subtree_resolveTree _ _ _ _ _ _ _ Hp) as (Hx & _).
  pose proof (resolveTree_followsRecord dns (domain x)
                (depth + Z.of_nat (length anc)) maxDepth
                (V ∪ list_to_set (domain <$> anc))) as Hrec.
  rewrite <- Hx in Hrec. unfold followsRecord in Hrec.
  destruct (spfRecord x) as [recordStr|] eqn:Hs.
  - destruct Hrec as (_ & Herr & Hranges & _). rewrite Hranges in Hr.
    assert (Hin : Entry.range e ∈ flat_map (valueAfter "ip4:") (tokens recordStr)).
    { by rewrite parseSpfRecord_tokens in Hr. }
    destruct (ParserFacts.token_values _ _ _ Hin) as (Hne & Hnw & _).
    split; [done |]. split; [done |]. exists anc, x, recordStr. eauto 10.
  - destruct Hrec as [Hranges _]. rewrite Hranges in Hr. by apply elem_of_nil in Hr.
Qed.

Lemma collected_ranges_come_from_records_witness :
  ∃ node w',
    lookupSpfRecords dnsDiamond 12 "root.com" 0 10 0%nat (mkWorld [∅] []) = Some (node, w')
    ∧ ∀ e, e ∈ collectAllIpRanges node [] →
        Entry.range e ≠ EmptyString ∧ Str.allNonWs (Entry.range e) = true
        ∧ ∃ anc x recordStr,
            PathTo node anc x ∧ domain x = Entry.domain e ∧ error x = None
            ∧ spfRecord x = Some recordStr
            ∧ Entry.range e ∈ ipv4 (parseSpfRecord recordStr).
Proof.
  apply (collected_ranges_come_from_records dnsDiamond "root.com" 0 10 0%nat
           (mkWorld [∅] []) ∅ 12%nat).
  - reflexivity.
  - vm_compute. lia.
Defined.

Lemma filter_sublist {A : Type} (f : A → bool) (l : list A) : sublist (List.filter f l) l.
Proof.
  induction l as [|x l IH]; cbn [List.filter]; [constructor |].
  destruct (f x); by constructor.
Qed.

(** X10.  The matches are a subsequence of the ranges given; every entry
    gives a match, a warning or neither, never both; and the matcher works
    entry by entry, so that the result for two lists put one after the
    other is the two results put one after the other. *)
Theorem matcher_is_entrywise :
  ∀ (ipRangeCheck : string → string → CheckOutcome) (ip : string)
    (ranges more : list RangeEntry),
    sublist (fst (checkIpInRanges ipRangeCheck ip ranges)) ranges
    ∧ (length (fst (checkIpInRanges ipRangeCheck ip ranges))
       + length (snd (checkIpInRanges ipRangeCheck ip ranges)) ≤ length ranges)%nat
    ∧ checkIpInRanges ipRangeCheck ip (ranges ++ more)
      = (fst (checkIpInRanges ipRangeCheck ip ranges)
           ++ fst (checkIpInRanges ipRangeCheck ip more),
         snd (checkIpInRanges ipRangeCheck ip ranges)
           ++ snd (checkIpInRanges ipRangeCheck ip more)).
Proof.
  intros ipRangeCheck ip ranges more. unfold checkIpInRanges.
  rewrite !forRanges_spec. cbn [fst snd app].
  split; [apply filter_sublist |]. split.
  - induction ranges as [|e rest IH]; [done |].
    cbn [List.filter flat_map length]. rewrite length_app.
    unfold isMatch at 1, warningFor at 1.
    destruct (ipRangeCheck ip (Entry.range e)) as [[|]|msg]; cbn [length]; lia.
  - by rewrite List.filter_app, flat_map_app.
Qed.

(** ** Request validation and the handlers *)

Module ValidationFacts.
Import Regex StrFacts RegexFacts.

#[local] Arguments String.append !_ _ / : simpl nomatch.

Lemma lang_dot (s : string) : lang (chr ".") s ↔ s = ".".
Proof.
  unfold chr. cbn [lang]. split.
  - intros (c & -> & Hc). apply inClass_chr in Hc. by subst.
  - intros ->. exists "."%char. split; [done |]. by apply inClass_chr.
Qed.

Lemma lang_ipRegex (ip : string) :
  lang ipRegex ip
  ↔ ∃ o1 o2 o3 o4,
      ip = o1 +:+ "." +:+ o2 +:+ "." +:+ o3 +:+ "." +:+ o4
      ∧ isOctet o1 = true ∧ isOctet o2 = true ∧ isOctet o3 = true ∧ isOctet o4 = true.
Proof.
  unfold ipRegex. cbn [lang timesLang]. split.
  - intros (x & o4 & -> & (a1 & r1 & -> & (o1 & d1 & -> & Ho1 & ->%lang_dot)
                & (a2 & r2 & -> & (o2 & d2 & -> & Ho2 & ->%lang_dot)
                   & (a3 & r3 & -> & (o3 & d3 & -> & Ho3 & ->%lang_dot) & ->))) & Ho4).
    exists o1, o2, o3, o4. rewrite <- !lang_octet. split; [|done].
    by rewrite append_nil_r, !append_assoc.
  - intros (o1 & o2 & o3 & o4 & -> & H1 & H2 & H3 & H4). rewrite <- lang_octet in *.
    exists ((o1 +:+ ".") +:+ (o2 +:+ ".") +:+ (o3 +:+ ".") +:+ EmptyString), o4.
    split; [by rewrite append_nil_r, !append_assoc |]. split; [|done].
    exists (o1 +:+ "."), ((o2 +:+ ".") +:+ (o3 +:+ ".") +:+ EmptyString).
    split; [done |]. split; [exists o1, "."; by rewrite lang_dot |].
    exists (o2 +:+ "."), ((o3 +:+ ".") +:+ EmptyString).
    split; [done |]. split; [exists o2, "."; by rewrite lang_dot |].
    exists (o3 +:+ "."), EmptyString.
    split; [done |]. split; [exists o3, "."; by rewrite lang_dot | done].
Qed.

Lemma test_domainRegex (s : string) :
  test domainRegex s = true ↔ s ≠ EmptyString ∧ allIn domainChars s = true.
Proof. by rewrite test_lang. Qed.

End ValidationFacts.

(** X11.  The address pattern accepts exactly the strings made of four
    parts joined by dots, each part one to three decimal digits that stand
    for a number up to 255; leading zeros are accepted. *)
Theorem ipRegex_accepts_dotted_quads :
  ∀ ip,
    Regex.test ipRegex ip = true
    ↔ ∃ o1 o2 o3 o4,
        ip = o1 +:+ "." +:+ o2 +:+ "." +:+ o3 +:+ "." +:+ o4
        ∧ isOctet o1 = true ∧ isOctet o2 = true ∧ isOctet o3 = true ∧ isOctet o4 = true.
Proof.
  intros ip. rewrite RegexFacts.test_lang. apply ValidationFacts.lang_ipRegex.
Qed.

Section HandlerFacts.

Variable dns : string → TxtAnswer.

(** A call with the defaults is never cut off at the root: its first
    lookup is for the domain it was given. *)
Lemma default_call (n : nat) (d : string) (w : World) :
  (fuel_for 0 10 ≤ n)%nat →
  ∃ w' rest,
    lookupSpfRecords_default dns n d w = Some (resolveTree dns d 0 10 ∅, w')
    ∧ queries w' = queries w ++ d :: rest.
Proof.
  intros Hn. unfold lookupSpfRecords_default. cbn [Set_new].
  destruct (lookup_effects dns 10 d 0 ∅ n (length (sets w))
              (mkWorld (sets w ++ [∅]) (queries w))) as (w' & E & _ & _ & Hq & _).
  - cbn [sets]. by rewrite list_lookup_middle.
  - done.
  - exists w'.
    assert (Hcut : cutOff d 0 10 ∅ = false).
    { unfold cutOff. cbn [orb]. change (10 <? 0) with false. cbn [orb].
      apply bool_decide_eq_false. apply not_elem_of_empty. }
    destruct (resolveTree dns d 0 10 ∅) as [d' rs cs e s] eqn:Htree.
    assert (Hd : d' = d).
    { pose proof (domain_resolveTree dns 10 d 0 ∅) as H. by rewrite Htree in H. }
    subst d'. rewrite lookups_unfold, Hcut in Hq. eauto.
Qed.

End HandlerFacts.

(** X12.  [GET /api/spf/:domain] answers 400 "Invalid domain format", and
    neither creates a set nor looks anything up, when the domain is empty
    or has a character outside [a-zA-Z0-9.-]; otherwise it answers with the
    tree of the domain resolved from depth 0 with bound 10 and an empty
    [visited], and its first lookup is for that domain. *)
Theorem getSpf_validates_then_resolves :
  ∀ (dns : string → TxtAnswer) (n : nat) (domain : string) (w : World),
    (fuel_for 0 10 ≤ n)%nat →
    (domain = EmptyString ∨ allIn domainChars domain = false →
       getSpf dns n domain w = Some (RespError 400 "Invalid domain format", w))
    ∧ (domain ≠ EmptyString → allIn domainChars domain = true →
       ∃ w' rest,
         getSpf dns n domain w = Some (RespTree (resolveTree dns domain 0 10 ∅), w')
         ∧ queries w' = queries w ++ domain :: rest).
Proof.
  intros dns n domain w Hn. unfold getSpf. split.
  - intros Hbad.
    assert (Htest : Regex.test domainRegex domain = false).
    { apply not_true_iff_false. rewrite ValidationFacts.test_domainRegex.
      intros [Hne Hall]. destruct Hbad as [->|Hbad]; [done | congruence]. }
    by rewrite Htest, orb_true_r.
  - intros Hne Hall.
    assert (Htest : Regex.test domainRegex domain = true).
    { by apply ValidationFacts.test_domainRegex. }
    rewrite Htest. destruct domain as [|c domain]; [done |]. cbn [Str.isEmpty orb negb].
    destruct (default_call dns n (String c domain) w Hn) as (w' & rest & -> & Hq).
    by exists w', rest.
Qed.

Lemma getSpf_validates_then_resolves_witness :
  getSpf dnsAB 12 "exam ple.com" (mkWorld [] ["earlier.com"])
  = Some (RespError 400 "Invalid domain format", mkWorld [] ["earlier.com"])
  ∧ ∃ w' rest,
      getSpf dnsAB 12 "a.com" (mkWorld [] ["earlier.com"])
      = Some (RespTree (resolveTree dnsAB "a.com" 0 10 ∅), w')
      ∧ queries w' = queries (mkWorld [] ["earlier.com"]) ++ "a.com" :: rest.
Proof.
  split.
  - apply (proj1 (getSpf_validates_then_resolves dnsAB 12 "exam ple.com"
                    (mkWorld [] ["earlier.com"]) ltac:(vm_compute; lia))).
    right. reflexivity.
  - apply (proj2 (getSpf_validates_then_resolves dnsAB 12 "a.com"
                    (mkWorld [] ["earlier.com"]) ltac:(vm_compute; lia))).
    + done.
    + reflexivity.
Defined.

(** X13.  [POST /api/check-ip] answers 400 without a lookup, a warning or
    a new set when [ip] or [domain] is absent or empty, and when [ip] is
    not accepted by the address pattern. *)
Theorem postCheckIp_rejects_before_lookup :
  ∀ (dns : string → TxtAnswer) (ipRangeCheck : string → string → CheckOutcome)
    (n : nat) (req : CheckIpRequest) (w : World),
    (falsy (req_ip req) = true ∨ falsy (req_domain req) = true →
       postCheckIp dns ipRangeCheck n req w
       = Some (RespError 400 "IP and domain are required", [], w))
    ∧ (∀ ip domain,
         req = mkCheckIpRequest (Some ip) (Some domain) →
         ip ≠ EmptyString → domain ≠ EmptyString → Regex.test ipRegex ip = false →
         postCheckIp dns ipRangeCheck n req w
         = Some (RespError 400 "Invalid IP address format", [], w)).
Proof.
  intros dns ipRangeCheck n req w. unfold postCheckIp. split.
  - intros [H|H]; rewrite H; by rewrite ?orb_true_r.
  - intros ip domain -> Hip Hdomain Htest. cbn [req_ip req_domain falsy default]. unfold id.
    destruct ip; [done |]. destruct domain; [done |]. cbn [Str.isEmpty orb].
    by rewrite Htest.
Qed.

Lemma postCheckIp_rejects_before_lookup_witness :
  postCheckIp dnsAB sampleCheck 12 (mkCheckIpRequest (Some "10.1.2.3") None) emptyWorld
  = Some (RespError 400 "IP and domain are required", [], emptyWorld)
  ∧ postCheckIp dnsAB sampleCheck 12
      (mkCheckIpRequest (Some "999.1.1.1") (Some "a.com")) emptyWorld
    = Some (RespError 400 "Invalid IP address format", [], emptyWorld).
Proof.
  split.
  - apply (proj1 (postCheckIp_rejects_before_lookup dnsAB sampleCheck 12
                    (mkCheckIpRequest (Some "10.1.2.3") None) emptyWorld)).
    right. reflexivity.
  - apply (proj2 (postCheckIp_rejects_before_lookup dnsAB sampleCheck 12
                    (mkCheckIpRequest (Some "999.1.1.1") (Some "a.com")) emptyWorld)
             "999.1.1.1" "a.com"); [reflexivity | done | done | reflexivity].
Defined.

Lemma filter_nonempty {A : Type} (f : A → bool) (l : list A) :
  (0 <? length (List.filter f l))%nat = true ↔ ∃ x, x ∈ l ∧ f x = true.
Proof.
  rewrite Nat.ltb_lt. split.
  - intros H. destruct (List.filter f l) as [|x rest] eqn:E; [simpl in H; lia |].
    assert (Hx : In x (List.filter f l)) by (rewrite E; by left).
    apply filter_In in Hx as [Hx Hf]. exists x. by rewrite list_elem_of_In.
  - intros (x & Hx & Hf).
    assert (Hin : In x (List.filter f l)).
    { apply filter_In. by rewrite <- list_elem_of_In. }
    destruct (List.filter f l); [done | simpl; lia].
Qed.

(** X14.  [POST /api/check-ip] with an accepted address and any non-empty
    domain (the domain is not checked against the pattern of the other
    route) looks the domain up and answers with the matches among the
    flattened ranges of its tree, in order; [isAuthorized] is true exactly
    when the check returns true for the address and a range of some node
    of the tree. *)
Theorem postCheckIp_resolves_and_matches :
  ∀ (dns : string → TxtAnswer) (ipRangeCheck : string → string → CheckOutcome)
    (n : nat) (ip domain : string) (w : World),
    (fuel_for 0 10 ≤ n)%nat → Regex.test ipRegex ip = true → domain ≠ EmptyString →
    ∃ body console w' rest,
      postCheckIp dns ipRangeCheck n (mkCheckIpRequest (Some ip) (Some domain)) w
      = Some (RespCheck body, console, w')
      ∧ queries w' = queries w ++ domain :: rest
      ∧ resp_ip body = ip ∧ resp_domain body = domain
      ∧ matches body
        = List.filter (isMatch ipRangeCheck ip) (preorder (resolveTree dns domain 0 10 ∅))
      ∧ (isAuthorized body = true
         ↔ ∃ anc x range,
             PathTo (resolveTree dns domain 0 10 ∅) anc x
             ∧ range ∈ ipRanges x ∧ ipRangeCheck ip range = Returns true).
Proof.
  intros dns ipRangeCheck n ip dom w Hn Htest Hdomain. unfold postCheckIp.
  cbn [req_ip req_domain falsy default]. unfold id.
  destruct ip as [|c ip]; [by vm_compute in Htest |].
  destruct dom as [|c' dom]; [done |]. cbn [Str.isEmpty orb]. rewrite Htest. cbn [negb].
  destruct (default_call dns n (String c' dom) w Hn) as (w' & rest & -> & Hq).
  unfold checkIpBody, checkIpInRanges. rewrite forRanges_spec, collectAllIpRanges_preorder.
  cbn [app]. eexists _, _, w', rest. split; [reflexivity |]. split; [done |].
  cbn [resp_ip resp_domain matches isAuthorized]. split; [done |]. split; [done |].
  split; [done |]. rewrite filter_nonempty. split.
  - intros (e & He & Hm). apply preorder_elem in He as (anc & x & Hp & _ & Hr).
    exists anc, x, (Entry.range e). split; [done |]. split; [done |].
    unfold isMatch in Hm. by destruct (ipRangeCheck _ (Entry.range e)) as [[|]|].
  - intros (anc & x & range & Hp & Hr & Hcheck). exists (Entry.mk range (domain x)). split.
    + apply preorder_elem. exists anc, x. eauto.
    + unfold isMatch. cbn [Entry.range]. by rewrite Hcheck.
Qed.

Lemma postCheckIp_resolves_and_matches_witness :
  Regex.test domainRegex "exam ple.com" = false
  ∧ ∃ body console w' rest,
      postCheckIp dnsOdd sampleCheck 12
        (mkCheckIpRequest (Some "10.1.2.3") (Some "exam ple.com")) emptyWorld
      = Some (RespCheck body, console, w')
      ∧ queries w' = queries emptyWorld ++ "exam ple.com" :: rest
      ∧ matches body = [Entry.mk "10.0.0.0/8" "exam ple.com"].
Proof.
  split; [reflexivity |].
  destruct (postCheckIp_resolves_and_matches dnsOdd sampleCheck 12 "10.1.2.3" "exam ple.com"
              emptyWorld) as (body & console & w' & rest & E & Hq & _ & _ & Hm & _).
  - vm_compute. lia.
  - reflexivity.
  - done.
  - exists body, console, w', rest. split; [exact E |]. split; [exact Hq |].
    rewrite Hm. by vm_compute.
Defined.

(** X15.  When the lookup of the domain fails, or returns no record with
    "v=spf1", [POST /api/check-ip] still answers with a result: no match,
    [isAuthorized] false and no warning, whatever the address. *)
Theorem postCheckIp_without_record :
  ∀ (dns : string → TxtAnswer) (ipRangeCheck : string → string → CheckOutcome)
    (n : nat) (ip domain : string) (w : World),
    (fuel_for 0 10 ≤ n)%nat → Regex.test ipRegex ip = true → domain ≠ EmptyString →
    (∃ message, dns domain = TxtError message)
    ∨ (∃ records, dns domain = TxtRecords records ∧ firstSpf records = None) →
    ∃ w',
      postCheckIp dns ipRangeCheck n (mkCheckIpRequest (Some ip) (Some domain)) w
      = Some (RespCheck (mkCheckIpResponse ip domain [] false), [], w').
Proof.
  intros dns ipRangeCheck n ip domain w Hn Htest Hdomain Hdns. unfold postCheckIp.
  cbn [req_ip req_domain falsy default]. unfold id.
  destruct ip as [|c ip]; [by vm_compute in Htest |].
  destruct domain as [|c' domain]; [done |]. cbn [Str.isEmpty orb]. rewrite Htest. cbn [negb].
  destruct (default_call dns n (String c' domain) w Hn) as (w' & rest & -> & _).
  exists w'. rewrite resolveTree_lookup; [|lia | apply not_elem_of_empty].
  destruct Hdns as [(message & ->)|(records & -> & ->)]; reflexivity.
Qed.

Lemma postCheckIp_without_record_witness :
  ∃ w',
    postCheckIp dnsAB sampleCheck 12 (mkCheckIpRequest (Some "10.1.2.3") (Some "c.com"))
      emptyWorld
    = Some (RespCheck (mkCheckIpResponse "10.1.2.3" "c.com" [] false), [], w').
Proof.
  apply (postCheckIp_without_record dnsAB sampleCheck 12 "10.1.2.3" "c.com" emptyWorld).
  - vm_compute. lia.
  - reflexivity.
  - done.
  - left. by exists "queryTxt ENOTFOUND c.com".
Defined.

(** ** Subtrees and the oracle *)

(** X16.  Every node of a returned tree is what a call of its own would
    return: a call for the node's domain, at the node's depth, with a set
    that holds the elements of [visited] and the domains of the node's
    ancestors, returns the subtree at that node. *)
Theorem subtrees_are_calls :
  ∀ (dns : string → TxtAnswer) (d : string) (depth maxDepth : Z)
    (l : Ref) (w : World) (V : gset string) (n : nat),
    sets w !! l = Some V → (fuel_for depth maxDepth ≤ n)%nat →
    ∃ node w',
      lookupSpfRecords dns n d depth maxDepth l w = Some (node, w')
      ∧ ∀ anc x, PathTo node anc x →
          ∀ (n2 : nat) (l2 : Ref) (w2 : World),
            sets w2 !! l2 = Some (V ∪ list_to_set (domain <$> anc)) →
            (fuel_for (depth + Z.of_nat (length anc)) maxDepth ≤ n2)%nat →
            ∃ w2', lookupSpfRecords dns n2 (domain x) (depth + Z.of_nat (length anc))
                     maxDepth l2 w2 = Some (x, w2').
Proof.
  intros dns d depth maxDepth l w V n Hl Hn.
  destruct (lookup_resolveTree dns maxDepth d depth V n l w Hl Hn) as (w' & E & _).
  exists (resolveTree dns d depth maxDepth V), w'. split; [done |].
  intros anc x Hpath n2 l2 w2 Hl2 Hn2.
  destruct (subtree_resolveTree _ _ _ _ _ _ _ Hpath) as (Hx & _).
  destruct (lookup_resolveTree dns maxDepth (domain x) _ _ n2 l2 w2 Hl2 Hn2) as (w2' & E2 & _).
  exists w2'. by rewrite Hx at 2.
Qed.

Lemma subtrees_are_calls_witness :
  ∃ w2',
    lookupSpfRecords dnsAB 12 "b.com" 1 10 0%nat (mkWorld [{["a.com"]}] [])
    = Some (mkSpfNode "b.com" []
              [terminalNode "a.com" "Circular reference detected";
               mkSpfNode "c.com" [] [] (Some "queryTxt ENOTFOUND c.com") None]
              None (Some "v=spf1 include:a.com include:c.com"), w2').
Proof.
  destruct (subtrees_are_calls dnsAB "a.com" 0 10 0%nat (mkWorld [∅] []) ∅ 12%nat)
    as (node & w' & E & Hsub).
  - reflexivity.
  - vm_compute. lia.
  - apply (f_equal (fmap fst)) in E. vm_compute in E. inversion E; subst node. clear E.
    apply (Hsub [treeAB]
             (mkSpfNode "b.com" []
                [terminalNode "a.com" "Circular reference detected";
                 mkSpfNode "c.com" [] [] (Some "queryTxt ENOTFOUND c.com") None]
                None (Some "v=spf1 include:a.com include:c.com"))).
    + apply path_step with
        (c := mkSpfNode "b.com" []
                [terminalNode "a.com" "Circular reference detected";
                 mkSpfNode "c.com" [] [] (Some "queryTxt ENOTFOUND c.com") None]
                None (Some "v=spf1 include:a.com include:c.com")).
      * apply list_elem_of_here.
      * apply path_here.
    + by vm_compute.
    + vm_compute. lia.
Defined.

Lemma resolveTree_oracle_frame (dns1 dns2 : string → TxtAnswer) (maxDepth : Z) (k : nat) :
  ∀ d depth V,
    (Z.to_nat (maxDepth + 1 - depth) ≤ k)%nat →
    (∀ q, q ∈ lookups depth maxDepth V (resolveTree dns1 d depth maxDepth V) →
          dns1 q = dns2 q) →
    resolveTree dns1 d depth maxDepth V = resolveTree dns2 d depth maxDepth V.
Proof.
  induction k as [|k IH]; intros d depth V Hk Hagree.
  - rewrite !resolveTree_unfold. unfold expected.
    assert (Hd : (maxDepth <? depth) = true) by (apply Z.ltb_lt; lia). by rewrite Hd.
  - rewrite resolveTree_unfold in Hagree. rewrite !resolveTree_unfold. unfold expected in *.
    destruct (maxDepth <? depth) eqn:Hd; [done |].
    destruct (bool_decide (d ∈ V)) eqn:Hv; [done |].
    apply Z.ltb_ge in Hd.
    assert (Hnocut : cutOff d depth maxDepth V = false).
    { unfold cutOff. apply orb_false_iff. split; [by apply Z.ltb_ge | done]. }
    assert (Hdns : dns1 d = dns2 d).
    { apply Hagree. destruct (dns1 d) as [?|records]; [|destruct (firstSpf records)];
        rewrite lookups_unfold, Hnocut; apply list_elem_of_here. }
    rewrite <- Hdns. destruct (dns1 d) as [message|records]; [done |].
    destruct (firstSpf records) as [recordStr|]; [|done].
    cbn zeta in *. f_equal. rewrite lookups_unfold, Hnocut in Hagree.
    revert Hagree. generalize (includes (parseSpfRecord recordStr)). intros incs Hagree.
    induction incs as [|inc incs IHincs]; [done |].
    cbn [map flat_map] in *. f_equal.
    + apply IH; [lia |]. intros q Hq. apply Hagree.
      apply list_elem_of_further, elem_of_app. by left.
    + apply IHincs. intros q [->|Hq]%elem_of_cons; apply Hagree.
      * apply list_elem_of_here.
      * apply list_elem_of_further, elem_of_app. by right.
Qed.

(** X17.  The tree depends on the oracle only through the lookups made:
    with a second oracle that answers those lookups in the same way, the
    call returns the same tree. *)
Theorem tree_depends_on_lookups_only :
  ∀ (dns1 dns2 : string → TxtAnswer) (d : string) (depth maxDepth : Z)
    (l : Ref) (w : World) (V : gset string) (n : nat),
    sets w !! l = Some V → (fuel_for depth maxDepth ≤ n)%nat →
    ∃ node w1,
      lookupSpfRecords dns1 n d depth maxDepth l w = Some (node, w1)
      ∧ ((∀ q, q ∈ lookups depth maxDepth V node → dns1 q = dns2 q) →
         ∃ w2, lookupSpfRecords dns2 n d depth maxDepth l w = Some (node, w2)).
Proof.
  intros dns1 dns2 d depth maxDepth l w V n Hl Hn.
  destruct (lookup_resolveTree dns1 maxDepth d depth V n l w Hl Hn) as (w1 & E1 & _).
  destruct (lookup_resolveTree dns2 maxDepth d depth V n l w Hl Hn) as (w2 & E2 & _).
  exists (resolveTree dns1 d depth maxDepth V), w1. split; [done |].
  intros Hagree. exists w2.
  by rewrite (resolveTree_oracle_frame dns1 dns2 maxDepth _ d depth V (le_n _) Hagree).
Qed.

Lemma tree_depends_on_lookups_only_witness :
  ∃ w2, lookupSpfRecords dnsDiamond 12 "c.com" 0 10 0%nat (mkWorld [∅] [])
        = Some (mkSpfNode "c.com" [] [] (Some "queryTxt ENOTFOUND") None, w2).
Proof.
  destruct (tree_depends_on_lookups_only dnsOdd dnsDiamond "c.com" 0 10 0%nat
              (mkWorld [∅] []) ∅ 12%nat) as (node & w1 & E & Hsame).
  - reflexivity.
  - vm_compute. lia.
  - apply (f_equal (fmap fst)) in E. vm_compute in E. inversion E; subst node. clear E.
    apply Hsame. intros q Hq. vm_compute in Hq.
    apply list_elem_of_singleton in Hq as ->. reflexivity.
Defined.

(** ** The depth bound and the numbers of JavaScript *)

Module ChainFacts.
Import StrFacts.

#[local] Arguments String.append !_ _ / : simpl nomatch.

Lemma add_two53 : PrimFloat.add Double.two53 1 = Double.two53.
Proof. reflexivity. Qed.

Lemma ltb_two53 : PrimFloat.ltb Double.two53 Double.two53 = false.
Proof. reflexivity. Qed.

(** The record of [d] in the chain has the marker and one include
    target, [xd]. *)
Lemma chain_marker (d : string) : Str.includes "v=spf1" ("v=spf1 include:x" +:+ d) = true.
Proof. reflexivity. Qed.

Lemma chain_includes (d : string) :
  Str.allNonWs d = true →
  includes (parseSpfRecord ("v=spf1 include:x" +:+ d)) = [String "x" d].
Proof.
  intros Hd. rewrite parseSpfRecord_tokens. cbn [includes].
  change ("v=spf1 include:x" +:+ d)
    with ("v=spf1" +:+ String " " ("include:x" +:+ d)).
  rewrite (tokens_token "v" "=spf1"); [|reflexivity | reflexivity].
  rewrite tokens_whitespace by reflexivity.
  rewrite <- (append_nil_r ("include:x" +:+ d)).
  change (("include:x" +:+ d) +:+ EmptyString)
    with (String "i" ("nclude:x" +:+ d) +:+ EmptyString).
  rewrite tokens_token; [|simpl; by rewrite Hd | reflexivity].
  cbn [flat_map tokens tokensFrom Str.isEmpty].
  change (String "i" ("nclude:x" +:+ d)) with ("include:" +:+ String "x" d).
  by rewrite valueAfter_form.
Qed.

(** From 2^53 on the depth no longer grows, and along the chain no domain
    comes twice: no amount of fuel lets the call return. *)
Lemma chain_runs_on (fuel : nat) :
  ∀ d V (l : Ref) (w : World),
    Str.allNonWs d = true →
    (∀ v, v ∈ V → (String.length v < String.length d)%nat) →
    sets w !! l = Some V →
    Double.lookupSpfRecords dnsChain fuel d Double.two53 Double.two53 l w = None.
Proof.
  induction fuel as [|fuel IH]; intros d V l w Hd Hshort Hl; [done |].
  cbn [Double.lookupSpfRecords]. rewrite ltb_two53. cbn [orb].
  assert (Hfresh : d ∉ V) by (intros Hin; apply Hshort in Hin; lia).
  rewrite (Set_has_contents _ _ _ _ Hl), (bool_decide_eq_false_2 _ Hfresh).
  cbn [resolveTxt dnsChain Double.forRecords toString Str.join].
  rewrite chain_marker. cbn zeta. rewrite (chain_includes d Hd).
  cbn [Double.forIncludes Set_copy Set_add sets queries]. rewrite add_two53.
  rewrite (IH (String "x" d) (V ∪ {[d]})); [done | | |].
  - simpl. by rewrite Hd.
  - intros v [Hv| ->%elem_of_singleton]%elem_of_union; [apply Hshort in Hv|]; simpl; lia.
  - cbn [sets]. rewrite list_lookup_middle by done.
    by rewrite list_lookup_alter_eq, Hl.
Qed.

End ChainFacts.

(** A call is not bound to return for every [depth] and [maxDepth]: they
    are doubles, and with both at 2^53 the sum [depth + 1] is 2^53 again,
    so [depth > maxDepth] never holds.  On the chain oracle, where every
    domain includes a new one, the call then returns with no fuel at
    all. *)
Lemma C1_no_bound_from_two53 :
  ¬ ∃ fuel node w',
      Double.lookupSpfRecords dnsChain fuel "a.com" Double.two53 Double.two53 0%nat
        (mkWorld [∅] [])
      = Some (node, w').
Proof.
  intros (fuel & node & w' & H).
  rewrite (ChainFacts.chain_runs_on fuel "a.com" ∅) in H; [done | reflexivity | | reflexivity].
  intros v Hv. by apply not_elem_of_empty in Hv.
Qed.

(** With both numbers at 2^53 the code resolves [b.com] below [a.com],
    where the definition on integers, one level past the bound, cuts it
    off. *)
Lemma double_resolves_past_two53 :
  fst <$> Double.lookupSpfRecords dnsAB 12 "a.com" Double.two53 Double.two53 0%nat
            (mkWorld [∅] [])
  = Some treeAB
  ∧ fst <$> lookupSpfRecords dnsAB 12 "a.com" 9007199254740992 9007199254740992 0%nat
              (mkWorld [∅] [])
    = Some (mkSpfNode "a.com" ["10.0.0.0/8"] [terminalNode "b.com" "Max depth reached"]
              None (Some "v=spf1 ip4:10.0.0.0/8 include:b.com -all")).
Proof. split; by vm_compute. Qed.
